(** * Summify: the bounded concurrent playlist pipeline of [main.go]

    A shallow embedding of [src/main.go]:
    - the sequential code ([getVideoTranscript],
      [summarizeTranscriptWithGemini], the body of the worker goroutine and
      the report loop of [main]) is written in a small monad that threads
      the history of external calls and can panic;
    - the goroutines of [main] (dispatch loop, workers, the goroutine that
      closes the results channel, the collection loop) are a step function
      on an explicit state, run under an arbitrary schedule.

    Calls to [log.Printf] only write to the operational log and are left
    out; everything else the code does to the outside world is an [Event]. *)

From stdpp Require Import base option list strings gmap fin_maps pretty.

Local Open Scope string_scope.
Local Open Scope list_scope.
Local Open Scope nat_scope.

(** ** Go strings

    A Go [string] is a sequence of bytes, as is a Rocq [string]. *)

Module Strings.

Definition nl : string := String (Ascii.ascii_of_nat 10) "".
Definition dquote : string := String (Ascii.ascii_of_nat 34) "".

(** [strings.HasPrefix(s, prefix)] *)
Fixpoint HasPrefix (s prefix : string) : bool :=
  match prefix, s with
  | EmptyString, _ => true
  | String _ _, EmptyString => false
  | String a prefix', String b s' =>
      if Ascii.eqb a b then HasPrefix s' prefix' else false
  end.

(** [strings.Contains(s, substr)] *)
Fixpoint Contains (s substr : string) : bool :=
  HasPrefix s substr ||
  match s with
  | EmptyString => false
  | String _ s' => Contains s' substr
  end.

(** The table [asciiSpace] of Go's [strings] package. *)
Definition asciiSpace (c : Ascii.ascii) : bool :=
  let n := Ascii.nat_of_ascii c in
  (n =? 9)%nat || (n =? 10)%nat || (n =? 11)%nat || (n =? 12)%nat
  || (n =? 13)%nat || (n =? 32)%nat.

Definition byte_is (b : Ascii.ascii) (n : N) : bool := (Ascii.N_of_ascii b =? n)%N.
Definition within (b : Ascii.ascii) (lo hi : N) : bool :=
  (lo <=? Ascii.N_of_ascii b)%N && (Ascii.N_of_ascii b <=? hi)%N.

(** The UTF-8 encodings of the runes outside ASCII for which
    [unicode.IsSpace] holds: U+0085 and U+00A0; U+1680, U+2000 to U+200A,
    U+2028, U+2029, U+202F, U+205F and U+3000. *)
Definition space2 (b1 b2 : Ascii.ascii) : bool :=
  byte_is b1 0xC2 && (byte_is b2 0x85 || byte_is b2 0xA0).
Definition space3 (b1 b2 b3 : Ascii.ascii) : bool :=
  (byte_is b1 0xE1 && byte_is b2 0x9A && byte_is b3 0x80)
  || (byte_is b1 0xE2 && byte_is b2 0x80
      && (within b3 0x80 0x8A || byte_is b3 0xA8 || byte_is b3 0xA9 || byte_is b3 0xAF))
  || (byte_is b1 0xE2 && byte_is b2 0x81 && byte_is b3 0x9F)
  || (byte_is b1 0xE3 && byte_is b2 0x80 && byte_is b3 0x80).

(** Removing the white space runes at the front of [s]; with [mirrored],
    [s] is a reversed string, in which the bytes of a rune come last
    first. *)
Fixpoint trimFront (mirrored : bool) (s : string) : string :=
  match s with
  | EmptyString => EmptyString
  | String b1 s1 =>
      if asciiSpace b1 then trimFront mirrored s1
      else
        match s1 with
        | EmptyString => s
        | String b2 s2 =>
            if (if mirrored then space2 b2 b1 else space2 b1 b2)
            then trimFront mirrored s2
            else
              match s2 with
              | EmptyString => s
              | String b3 s3 =>
                  if (if mirrored then space3 b3 b2 b1 else space3 b1 b2 b3)
                  then trimFront mirrored s3
                  else s
              end
        end
  end.

(** [strings.TrimSpace(s)]: the leading and the trailing white space
    runes of [s] are removed.  A byte sequence that is not the encoding of
    a white space rune, valid UTF-8 or not, stops the trimming, as the
    decoding to [utf8.RuneError] does in Go. *)
Definition TrimSpace (s : string) : string :=
  String.rev (trimFront true (String.rev (trimFront false s))).

End Strings.

(** ** Go errors *)

(** A Go [error] value: [errorString] is what [fmt.Errorf] builds without
    [%w] (and what an external package reports), [wrapError] what it builds
    with [%w]: the formatted message and the wrapped error. *)
Inductive error : Type :=
| errorString (msg : string)
| wrapError (msg : string) (err : error).

(** [err.Error()] *)
Definition Error (e : error) : string :=
  match e with
  | errorString msg => msg
  | wrapError msg _ => msg
  end.

(** [errors.Unwrap(err)] *)
Definition Unwrap (e : error) : option error :=
  match e with
  | errorString _ => None
  | wrapError _ err => Some err
  end.

#[global] Instance error_eq_dec : EqDecision error.
Proof. solve_decision. Defined.

(** ** Configuration *)

(** [time.Duration] is a count of nanoseconds. *)
Definition Duration := Z.
Definition Second : Duration := 1000000000%Z.

Record AppConfig : Type := {
  YoutubeAPIKey : string;
  GeminiAPIKey : string;
  PlaylistID : string;
  GeminiModel : string;
  TempTranscriptDir : string;
  MaxTranscriptRetries : Z;
  TranscriptRetryDelay : Duration;
  LLMTimeout : Duration;
  ConcurrencyLimit : Z;
  SummaryWordCount : Z
}.

Definition defaultPlaylistID := "PL8GTokWa3GEeH8kUkx0rzRWwrzlvO8JaT".
Definition defaultGeminiModel := "gemini-1.5-flash-latest".
Definition defaultTempTranscriptDir := "./transcripts_temp".
Definition defaultMaxTranscriptRetries : Z := 3.
Definition defaultTranscriptRetryDelay : Duration := (5 * Second)%Z.
Definition defaultLLMTimeout : Duration := (60 * Second)%Z.
Definition defaultConcurrencyLimit : Z := 5.
Definition defaultSummaryWordCount : Z := 15.
Definition envYoutubeAPIKey := "YOUTUBE_API_KEY".

(** [getEnvWithDefault], on the value [os.Getenv] returned. *)
Definition getEnvWithDefault (value defaultValue : string) : string :=
  if decide (value ≠ "") then value else defaultValue.

(** [initializeAppConfig], on the values of the four environment
    variables it reads. *)
Definition initializeAppConfig (youtubeKey geminiKey playlist model : string)
  : option AppConfig * option error :=
  let cfg := {|
    YoutubeAPIKey := youtubeKey;
    GeminiAPIKey := geminiKey;
    PlaylistID := getEnvWithDefault playlist defaultPlaylistID;
    GeminiModel := getEnvWithDefault model defaultGeminiModel;
    TempTranscriptDir := defaultTempTranscriptDir;
    MaxTranscriptRetries := defaultMaxTranscriptRetries;
    TranscriptRetryDelay := defaultTranscriptRetryDelay;
    LLMTimeout := defaultLLMTimeout;
    ConcurrencyLimit := defaultConcurrencyLimit;
    SummaryWordCount := defaultSummaryWordCount |} in
  if decide (YoutubeAPIKey cfg = "")
  then (None, Some (errorString (envYoutubeAPIKey +:+ " environment variable must be set")))
  else (Some cfg, None).

(** ** Data structures *)

Record VideoDetails : Type := {
  ID : string;
  Title : string
}.

Record ProcessingResult : Type := {
  Details : VideoDetails;   (* the field [VideoDetails] of the Go struct *)
  Summary : string;
  Err : option error
}.

#[global] Instance VideoDetails_eq_dec : EqDecision VideoDetails.
Proof. solve_decision. Defined.
#[global] Instance ProcessingResult_eq_dec : EqDecision ProcessingResult.
Proof. solve_decision. Defined.

(** ** The outside world *)

(** What [astisub.OpenFile] hands back: items, their lines, the text items
    of a line. *)
Record LineItem : Type := { Text : string }.
Record Line : Type := { LineItems : list LineItem }.
Record Item : Type := { Lines : list Line }.
Record Subtitles : Type := { Items : list Item }.

(** What [GenerateContent] hands back.  [Content] is a pointer in the
    [genai] package and may be nil; a part is a [genai.Text] or a value of
    another type, of which only the type name is used (by [%T]). *)
Inductive Part : Type :=
| PartText (s : string)
| PartOther (typeName : string).
Record Content : Type := { Parts : list Part }.
Record Candidate : Type := { CandidateContent : option Content }.
Record GenerateContentResponse : Type := { Candidates : list Candidate }.

(** [*genai.GenerativeModel], a handle on the model of that name. *)
Record GenerativeModel : Type := { ModelName : string }.

(** One call that leaves the process. *)
Inductive Event : Type :=
| EvMkdirAll (path : string)
| EvExec (name : string) (args : list string)
| EvSleep (d : Duration)
| EvGlob (pattern : string)
| EvOpenFile (path : string)
| EvRemove (path : string)
| EvGenerateContent (model : GenerativeModel) (prompt : string) (timeout : Duration).

Definition History := list Event.

(** The answers of the outside world.  Each may depend on everything the
    caller did before (the history at the time of the call), so that a
    command can fail twice and then succeed.  [filepath_Join] is the pure
    library function [filepath.Join]. *)
Record World : Type := {
  filepath_Join : string → string → string;
  os_MkdirAll : History → string → option error;
  cmd_CombinedOutput : History → string → list string → string * option error;
  filepath_Glob : History → string → list string * option error;
  astisub_OpenFile : History → string → Subtitles + error;
  genai_GenerateContent :
    History → GenerativeModel → string → Duration → GenerateContentResponse + error
}.

(** ** The monad of the sequential code

    A computation reads the world, extends the history and either returns
    or panics. *)
Inductive Result (A : Type) : Type :=
| Ok (a : A) (h : History)
| Panicked (h : History).
Arguments Ok {A} a h.
Arguments Panicked {A} h.

Definition M (A : Type) : Type := World → History → Result A.

#[global] Instance M_ret : MRet M := λ A a _ h, Ok a h.
#[global] Instance M_bind : MBind M := λ A B f m w h,
  match m w h with
  | Ok a h' => f a w h'
  | Panicked h' => Panicked h'
  end.

Definition panic {A} : M A := λ _ h, Panicked h.

Definition Join (dir file : string) : M string :=
  λ w h, Ok (filepath_Join w dir file) h.
Definition MkdirAll (path : string) : M (option error) :=
  λ w h, Ok (os_MkdirAll w h path) (h ++ [EvMkdirAll path]).
Definition CombinedOutput (name : string) (args : list string) : M (string * option error) :=
  λ w h, Ok (cmd_CombinedOutput w h name args) (h ++ [EvExec name args]).
Definition Sleep (d : Duration) : M unit :=
  λ _ h, Ok () (h ++ [EvSleep d]).
Definition Glob (pattern : string) : M (list string * option error) :=
  λ w h, Ok (filepath_Glob w h pattern) (h ++ [EvGlob pattern]).
Definition OpenFile (path : string) : M (Subtitles + error) :=
  λ w h, Ok (astisub_OpenFile w h path) (h ++ [EvOpenFile path]).
Definition Remove (path : string) : M unit :=
  λ _ h, Ok () (h ++ [EvRemove path]).
Definition GenerateContent (g : GenerativeModel) (prompt : string) (timeout : Duration)
  : M (GenerateContentResponse + error) :=
  λ w h, Ok (genai_GenerateContent w h g prompt timeout)
            (h ++ [EvGenerateContent g prompt timeout]).

(** Counting the calls of one kind in a history. *)
Definition is_exec (e : Event) : bool :=
  match e with EvExec _ _ => true | _ => false end.
Definition is_sleep (e : Event) : bool :=
  match e with EvSleep _ => true | _ => false end.
Definition is_generate (e : Event) : bool :=
  match e with EvGenerateContent _ _ _ => true | _ => false end.

Definition count (p : Event → bool) (h : History) : nat :=
  length (List.filter p h).

(** ** Transcript fetching and parsing *)

Module Acquirer.
Import Strings.

(** The test of lines 173 and 182. *)
Definition no_subtitles (output : string) : bool :=
  Contains output "no subtitles" || Contains output "no suitable subtitles found".

Definition ytdlp_args (outTemplate videoURL : string) : list string :=
  ["--write-auto-sub"; "--write-sub"; "--sub-format"; "vtt";
   "--sub-langs"; "en.*,en"; "--skip-download"; "-o"; outTemplate; videoURL].

(** How the [for] loop of line 157 is left: by one of its two [return]
    statements, or by [break] or the loop condition, with the last
    [output] and [err]. *)
Inductive loop_exit : Type :=
| Returned (r : string * option error)
| Left (output : string) (err : option error).

(** The loop of lines 157-190.  [remaining] counts the iterations not yet
    run, [MaxTranscriptRetries - attempt + 1]: the loop condition
    [attempt <= cfg.MaxTranscriptRetries] holds exactly while it is not
    zero.  [attempt] never exceeds [MaxTranscriptRetries + 1], so that the
    increment does not wrap.  [output] and [err] are the variables
    declared before the loop. *)
Fixpoint attempts (cfg : AppConfig) (args : list string) (remaining : nat)
    (attempt : Z) (output : string) (err : option error) : M loop_exit :=
  match remaining with
  | O => mret (Left output err)
  | S remaining' =>
      '(output, err) ← CombinedOutput "yt-dlp" args;
      match err with
      | None =>
          if no_subtitles output then mret (Returned ("", None))
          else mret (Left output None)
      | Some _ =>
          if no_subtitles output then mret (Returned ("", None))
          else
            _ ← (if bool_decide (attempt < MaxTranscriptRetries cfg)%Z
                 then Sleep (TranscriptRetryDelay cfg) else mret ());
            attempts cfg args remaining' (attempt + 1)%Z output err
      end
  end.

(** The text built by lines 220-229. *)
Definition line_text (l : Line) : string :=
  foldr (λ lineItem acc, Text lineItem +:+ " " +:+ acc) "" (LineItems l).
Definition item_text (it : Item) : string :=
  foldr (λ l acc, line_text l +:+ acc) "" (Lines it) +:+ " ".
Definition transcript_text (subs : Subtitles) : string :=
  foldr (λ it acc, item_text it +:+ acc) "" (Items subs).

(** Lines 216-236, the part of the function the deferred [os.Remove]
    covers. *)
Definition parse (videoID vttFilePath : string) : M (string * option error) :=
  opened ← OpenFile vttFilePath;
  match opened with
  | inr openErr =>
      mret ("", Some (wrapError
        ("video " +:+ videoID +:+ ": failed to open/parse VTT file " +:+ vttFilePath
         +:+ ": " +:+ Error openErr) openErr))
  | inl subs =>
      let fullTranscript := TrimSpace (transcript_text subs) in
      if decide (fullTranscript = "") then mret ("", None)
      else mret (fullTranscript, None)
  end.

Definition videoURL (videoID : string) : string :=
  "https://www.youtube.com/watch?v=" +:+ videoID.

(** Lines 157-190 with the values the variables have at line 157. *)
Definition fetch (videoID : string) (cfg : AppConfig) : M loop_exit :=
  outTemplate ← Join (TempTranscriptDir cfg) "%(id)s.%(ext)s";
  attempts cfg (ytdlp_args outTemplate (videoURL videoID))
           (Z.to_nat (MaxTranscriptRetries cfg)) 1%Z "" None.

(** Lines 201-208: the [.vtt] files found, or the error of line 203. *)
Definition find_vtt (videoID : string) (cfg : AppConfig) : M (list string + error) :=
  vttFileNamePattern ← Join (TempTranscriptDir cfg) (videoID +:+ ".*.vtt");
  '(matches, globErr) ← Glob vttFileNamePattern;
  match globErr with
  | Some globErr =>
      mret (inr (wrapError
        ("video " +:+ videoID +:+ ": error searching VTT pattern "
         +:+ vttFileNamePattern +:+ ": " +:+ Error globErr) globErr))
  | None =>
      match matches with
      | [] =>
          vttFileNamePattern ← Join (TempTranscriptDir cfg) (videoID +:+ ".vtt");
          '(matches, _) ← Glob vttFileNamePattern;
          mret (inl matches)
      | _ => mret (inl matches)
      end
  end.

Definition getVideoTranscript (videoID : string) (cfg : AppConfig)
  : M (string * option error) :=
  mkErr ← MkdirAll (TempTranscriptDir cfg);
  match mkErr with
  | Some err =>
      mret ("", Some (wrapError
        ("failed to create temp dir " +:+ TempTranscriptDir cfg +:+ " for video "
         +:+ videoID +:+ ": " +:+ Error err) err))
  | None =>
      exit ← fetch videoID cfg;
      match exit with
      | Returned r => mret r
      | Left output (Some err) =>
          mret ("", Some (wrapError
            ("yt-dlp command for video " +:+ videoID +:+ " failed after "
             +:+ pretty (MaxTranscriptRetries cfg) +:+ " attempts: " +:+ Error err
             +:+ nl +:+ "Last Output: " +:+ output) err))
      | Left output None =>
          found ← find_vtt videoID cfg;
          match found with
          | inr globErr => mret ("", Some globErr)
          | inl [] => mret ("", None)
          | inl (vttFilePath :: _) =>
              r ← parse videoID vttFilePath;
              _ ← Remove vttFilePath;     (* deferred at line 214 *)
              mret r
          end
      end
  end.

(** The three outcomes the caller tells apart in the pair returned
    (lines 339 and 346). *)
Inductive TranscriptOutcome : Type :=
| TranscriptText (content : string)
| Absent
| Failure (cause : error).

Definition outcome (r : string * option error) : TranscriptOutcome :=
  match r with
  | (_, Some cause) => Failure cause
  | (transcript, None) =>
      if decide (transcript = "") then Absent else TranscriptText transcript
  end.

(** The arguments every attempt passes to [yt-dlp]. *)
Definition fetch_args (w : World) (videoID : string) (cfg : AppConfig) : list string :=
  ytdlp_args (filepath_Join w (TempTranscriptDir cfg) "%(id)s.%(ext)s") (videoURL videoID).

(** The answer to the first run of the command, [h] being the history
    when [getVideoTranscript] is entered. *)
Definition first_fetch (w : World) (videoID : string) (cfg : AppConfig) (h : History)
  : string * option error :=
  cmd_CombinedOutput w (h ++ [EvMkdirAll (TempTranscriptDir cfg)]) "yt-dlp"
                     (fetch_args w videoID cfg).

(** A world in which every run of the command fails without the
    no-subtitles signal in its output. *)
Definition always_transient (w : World) (args : list string) : Prop :=
  ∀ h, ∃ out e, cmd_CombinedOutput w h "yt-dlp" args = (out, Some e)
                ∧ no_subtitles out = false.

End Acquirer.

(** ** LLM interaction *)

Module Summarizer.
Import Strings.

Definition emptyTranscriptSummary : string :=
  "Transcript was empty, no summary generated.".

(** [fmt.Sprintf(summaryPromptFormat, wordCount, transcript)] *)
Definition summaryPrompt (wordCount : Z) (transcript : string) : string :=
  "Summarize this video transcript in exactly " +:+ pretty wordCount +:+ " words:"
  +:+ nl +:+ nl +:+ "Transcript:" +:+ nl +:+ dquote +:+ transcript +:+ dquote.

Definition summarizeTranscriptWithGemini (geminiModel : GenerativeModel)
    (transcript : string) (cfg : AppConfig) : M (string * option error) :=
  if decide (transcript = "") then mret (emptyTranscriptSummary, None)
  else
    let prompt := summaryPrompt (SummaryWordCount cfg) transcript in
    answer ← GenerateContent geminiModel prompt (LLMTimeout cfg);
    match answer with
    | inr err =>
        mret ("", Some (wrapError ("gemini GenerateContent failed: " +:+ Error err) err))
    | inl resp =>
        match Candidates resp with
        | [] => mret ("", Some (errorString "gemini returned no content candidates"))
        | candidate :: _ =>
            match CandidateContent candidate with
            | None => panic   (* nil pointer dereference at [.Content.Parts] *)
            | Some content =>
                match Parts content with
                | [] => mret ("", Some (errorString "gemini returned no content candidates"))
                | PartText summaryPart :: _ => mret (TrimSpace summaryPart, None)
                | PartOther typeName :: _ =>
                    mret ("", Some (errorString
                      ("gemini returned unexpected content part type: " +:+ typeName)))
                end
            end
        end
    end.

End Summarizer.

(** ** The worker goroutine *)

Module Worker.
Import Strings.

Definition set_Err (r : ProcessingResult) (e : error) : ProcessingResult :=
  {| Details := Details r; Summary := Summary r; Err := Some e |}.
Definition set_Summary (r : ProcessingResult) (s : string) : ProcessingResult :=
  {| Details := Details r; Summary := s; Err := Err r |}.

Definition errNoTranscript : error := errorString "no transcript available".
Definition errSkipped : error :=
  errorString "summarization skipped (Gemini client not available)".

(** Lines 334-378 of the function literal each worker goroutine runs, with
    the summarize call of line 361 as a parameter: the value returned is
    the [ProcessingResult] the goroutine sends on [resultsChannel], at
    line 342 or at line 378. *)
Definition worker_with
    (summarize : GenerativeModel → string → AppConfig → M (string * option error))
    (v : VideoDetails) (currentCfg : AppConfig)
    (currentGeminiClient : option GenerativeModel) : M ProcessingResult :=
  let currentProcessingResult := {| Details := v; Summary := ""; Err := None |} in
  '(transcript, transcriptErr) ← Acquirer.getVideoTranscript (ID v) currentCfg;
  match transcriptErr with
  | Some transcriptErr => mret (set_Err currentProcessingResult transcriptErr)
  | None =>
      if decide (transcript = "")
      then mret (set_Err currentProcessingResult errNoTranscript)
      else
        match currentGeminiClient with
        | Some client =>
            '(summary, summaryErr) ← summarize client transcript currentCfg;
            match summaryErr with
            | Some summaryErr => mret (set_Err currentProcessingResult summaryErr)
            | None => mret (set_Summary currentProcessingResult (TrimSpace summary))
            end
        | None =>
            match Err currentProcessingResult with
            | None => mret (set_Err currentProcessingResult errSkipped)
            | Some _ => mret currentProcessingResult
            end
        end
  end.

Definition worker : VideoDetails → AppConfig → option GenerativeModel → M ProcessingResult :=
  worker_with Summarizer.summarizeTranscriptWithGemini.

End Worker.

(** ** The report loop of [main] *)

Module Report.
Import Strings.

(** What one iteration of the loop of line 398 prints: the "result
    missing" block for [video], or the block of the [result] found. *)
Inductive ReportEntry : Type :=
| Missing (video : VideoDetails)
| Found (result : ProcessingResult).

(** The identifier and title an entry prints. *)
Definition entry_item (e : ReportEntry) : VideoDetails :=
  match e with
  | Missing video => video
  | Found result => Details result
  end.

Definition separator : string := "------------------------------------" +:+ nl.

(** The text of an entry, as written to standard output. *)
Definition render (wordCount : Z) (e : ReportEntry) : string :=
  match e with
  | Missing video =>
      nl +:+ "Video ID: " +:+ ID video +:+ nl +:+ "Title: " +:+ Title video +:+ nl
      +:+ "Status/Error: Result missing." +:+ nl +:+ separator
  | Found result =>
      nl +:+ "Video ID: " +:+ ID (Details result) +:+ nl
      +:+ "Title: " +:+ Title (Details result) +:+ nl
      +:+ (if decide (Summary result ≠ "")
           then "Summary (" +:+ pretty wordCount +:+ " words): " +:+ Summary result +:+ nl
           else "")
      +:+ match Err result with
          | Some err => "Status/Error: " +:+ Error err +:+ nl
          | None =>
              if decide (Summary result = "")
              then "Status: No summary generated (e.g., transcript was empty or summarization skipped)." +:+ nl
              else ""
          end
      +:+ separator
  end.

(** The variables the loop updates.  The counters are Go [int]s; each is
    incremented at most once per element of [videos], whose length is an
    [int], so the additions never wrap. *)
Record Tally : Type := {
  entries : list ReportEntry;
  successfulSummaries : Z;
  videosWithErrors : Z
}.

Definition start : Tally :=
  {| entries := []; successfulSummaries := 0; videosWithErrors := 0 |}.

(** The body of the loop of lines 398-420. *)
Definition visit (allResults : gmap string ProcessingResult) (t : Tally)
    (video : VideoDetails) : Tally :=
  match allResults !! ID video with
  | None =>
      {| entries := entries t ++ [Missing video];
         successfulSummaries := successfulSummaries t;
         videosWithErrors := videosWithErrors t + 1 |}
  | Some result =>
      {| entries := entries t ++ [Found result];
         successfulSummaries :=
           if decide (Summary result ≠ "") then successfulSummaries t + 1
           else successfulSummaries t;
         videosWithErrors :=
           match Err result with
           | Some _ => videosWithErrors t + 1
           | None => videosWithErrors t
           end |}
  end%Z.

(** Lines 393-423: the entries printed and the three numbers of the final
    log line. *)
Definition report (videos : list VideoDetails)
    (allResults : gmap string ProcessingResult) : Tally :=
  foldl (visit allResults) start videos.

(** The entry the loop body prints for [video]. *)
Definition entry_of (allResults : gmap string ProcessingResult)
    (video : VideoDetails) : ReportEntry :=
  match allResults !! ID video with
  | None => Missing video
  | Some result => Found result
  end.

(** The videos the loop finds with a summary, with an error or without a
    result, and with a result that has neither summary nor error. *)
Definition summarized (allResults : gmap string ProcessingResult)
    (video : VideoDetails) : bool :=
  match allResults !! ID video with
  | Some result => bool_decide (Summary result ≠ "")
  | None => false
  end.
Definition errored (allResults : gmap string ProcessingResult)
    (video : VideoDetails) : bool :=
  match allResults !! ID video with
  | Some result => bool_decide (Err result ≠ None)
  | None => true
  end.
Definition silent (allResults : gmap string ProcessingResult)
    (video : VideoDetails) : bool :=
  match allResults !! ID video with
  | Some result => bool_decide (Summary result = "" ∧ Err result = None)
  | None => false
  end.
Definition number (p : VideoDetails → bool) (videos : list VideoDetails) : Z :=
  Z.of_nat (length (List.filter p videos)).

Definition counts (videos : list VideoDetails) (t : Tally) : Z * Z * Z :=
  (successfulSummaries t, videosWithErrors t, Z.of_nat (length videos)).

End Report.

(** ** The goroutines of [main]

    Lines 314-423: the dispatch loop, one worker goroutine per video, the
    goroutine that waits for the [WaitGroup] and closes [resultsChannel],
    the collection loop and the report.  Every goroutine is a program
    counter; [step] runs one statement of one goroutine, and is undefined
    when that goroutine is blocked, has ended, or the process is gone. *)

Module Pipeline.
Import Worker Report.

(** Where the main goroutine stands. [MAdd i], [MAcquire i] and [MGo i]
    are the three statements of the loop body for [videos[i]]. *)
Inductive main_pc : Type :=
| MAdd (i : nat)       (* line 327: wg.Add(1) *)
| MAcquire (i : nat)   (* line 328: semaphore <- struct{}{} *)
| MGo (i : nat)        (* line 330: go func(...){...}(video, cfg, geminiClient) *)
| MGoCloser            (* line 382: go func() { wg.Wait(); close(resultsChannel) }() *)
| MCollect             (* line 389: for result := range resultsChannel *)
| MReport              (* lines 393-423 *)
| MReturned.           (* main has returned: the process has ended *)

#[global] Instance main_pc_eq_dec : EqDecision main_pc.
Proof. solve_decision. Defined.

(** How the body of a worker ended: it sent its result and returned, or
    it is panicking.  The deferred calls run in both cases. *)
Inductive ending : Type := Sent | Panicking.

Inductive worker_pc : Type :=
| WRun (v : VideoDetails)        (* lines 334-378 before the send: fetch, summarize *)
| WSend (r : ProcessingResult)   (* line 342 or 378: resultsChannel <- result *)
| WRelease (e : ending)          (* line 332, deferred: <-semaphore *)
| WDone (e : ending)             (* line 331, deferred: wg.Done() *)
| WExited.

Inductive closer_pc : Type :=
| CWait      (* line 383: wg.Wait() *)
| CClose     (* line 384: close(resultsChannel) *)
| CExited.

Record State : Type := mkState {
  main : main_pc;
  workers : list worker_pc;            (* worker [i] processes [videos[i]] *)
  closer : option closer_pc;           (* [None]: not started yet *)
  wg : Z;                              (* the counter of the WaitGroup *)
  semaphore : nat;                     (* values buffered in [semaphore] *)
  resultsChannel : list ProcessingResult;   (* values buffered, oldest first *)
  closed : bool;                       (* [resultsChannel] has been closed *)
  allResults : gmap string ProcessingResult;
  printed : option Tally;              (* the report, once written *)
  crashed : bool                       (* the process died of a panic *)
}.

Definition set_main (pc : main_pc) (s : State) : State :=
  mkState pc (workers s) (closer s) (wg s) (semaphore s) (resultsChannel s)
          (closed s) (allResults s) (printed s) (crashed s).
Definition set_workers (ws : list worker_pc) (s : State) : State :=
  mkState (main s) ws (closer s) (wg s) (semaphore s) (resultsChannel s)
          (closed s) (allResults s) (printed s) (crashed s).
Definition set_closer (c : option closer_pc) (s : State) : State :=
  mkState (main s) (workers s) c (wg s) (semaphore s) (resultsChannel s)
          (closed s) (allResults s) (printed s) (crashed s).
Definition set_wg (n : Z) (s : State) : State :=
  mkState (main s) (workers s) (closer s) n (semaphore s) (resultsChannel s)
          (closed s) (allResults s) (printed s) (crashed s).
Definition set_semaphore (n : nat) (s : State) : State :=
  mkState (main s) (workers s) (closer s) (wg s) n (resultsChannel s)
          (closed s) (allResults s) (printed s) (crashed s).
Definition set_resultsChannel (q : list ProcessingResult) (s : State) : State :=
  mkState (main s) (workers s) (closer s) (wg s) (semaphore s) q
          (closed s) (allResults s) (printed s) (crashed s).
Definition set_closed (s : State) : State :=
  mkState (main s) (workers s) (closer s) (wg s) (semaphore s) (resultsChannel s)
          true (allResults s) (printed s) (crashed s).
Definition set_allResults (m : gmap string ProcessingResult) (s : State) : State :=
  mkState (main s) (workers s) (closer s) (wg s) (semaphore s) (resultsChannel s)
          (closed s) m (printed s) (crashed s).
Definition set_printed (t : Tally) (s : State) : State :=
  mkState (main s) (workers s) (closer s) (wg s) (semaphore s) (resultsChannel s)
          (closed s) (allResults s) (Some t) (crashed s).
Definition crash (s : State) : State :=
  mkState (main s) (workers s) (closer s) (wg s) (semaphore s) (resultsChannel s)
          (closed s) (allResults s) (printed s) true.

Inductive goroutine : Type :=
| GMain
| GWorker (i : nat)
| GCloser.

Section Run.
Variable videos : list VideoDetails.
Variable cfg : AppConfig.
Variable geminiClient : option GenerativeModel.
(** The outside world as worker [i] meets it: its answers to the calls of
    that worker, by the history of that worker's own calls. *)
Variable world : nat → World.

(** The head of the loop of line 326. *)
Definition loop_head (i : nat) : main_pc :=
  if decide (i < length videos) then MAdd i else MGoCloser.

(** The state at line 314.  With no videos [main] returns at once; a
    negative capacity makes [make] panic. *)
Definition init : State :=
  match videos with
  | [] => mkState MReturned [] None 0 0 [] false ∅ None false
  | _ => mkState (loop_head 0) [] None 0 0 [] false ∅ None
                 (bool_decide (ConcurrencyLimit cfg < 0)%Z)
  end.

Definition step_main (s : State) : option State :=
  match main s with
  | MAdd i => Some (set_main (MAcquire i) (set_wg (wg s + 1) s))
  | MAcquire i =>
      if decide (Z.of_nat (semaphore s) < ConcurrencyLimit cfg)%Z
      then Some (set_main (MGo i) (set_semaphore (S (semaphore s)) s))
      else None
  | MGo i =>
      video ← videos !! i;
      Some (set_main (loop_head (S i)) (set_workers (workers s ++ [WRun video]) s))
  | MGoCloser => Some (set_main MCollect (set_closer (Some CWait) s))
  | MCollect =>
      match resultsChannel s with
      | result :: rest =>
          Some (set_allResults (<[ID (Details result) := result]> (allResults s))
                  (set_resultsChannel rest s))
      | [] => if closed s then Some (set_main MReport s) else None
      end
  | MReport => Some (set_main MReturned (set_printed (report videos (allResults s)) s))
  | MReturned => None
  end.

Definition set_worker (i : nat) (pc : worker_pc) (s : State) : State :=
  set_workers (<[i := pc]> (workers s)) s.

Definition step_worker (i : nat) (s : State) : option State :=
  pc ← workers s !! i;
  match pc with
  | WRun v =>
      match worker v cfg geminiClient (world i) [] with
      | Ok r _ => Some (set_worker i (WSend r) s)
      | Panicked _ => Some (set_worker i (WRelease Panicking) s)
      end
  | WSend r =>
      if closed s then Some (crash s)     (* send on closed channel *)
      else if decide (length (resultsChannel s) < length videos)
      then Some (set_worker i (WRelease Sent) (set_resultsChannel (resultsChannel s ++ [r]) s))
      else None
  | WRelease e =>
      match semaphore s with
      | S n => Some (set_worker i (WDone e) (set_semaphore n s))
      | O => None
      end
  | WDone e =>
      if decide (wg s - 1 < 0)%Z then Some (crash s)   (* negative WaitGroup counter *)
      else
        let s' := set_worker i WExited (set_wg (wg s - 1) s) in
        Some (match e with Sent => s' | Panicking => crash s' end)
  | WExited => None
  end.

Definition step_closer (s : State) : option State :=
  pc ← closer s;
  match pc with
  | CWait => if decide (wg s = 0%Z) then Some (set_closer (Some CClose) s) else None
  | CClose =>
      if closed s then Some (crash s)     (* close of closed channel *)
      else Some (set_closer (Some CExited) (set_closed s))
  | CExited => None
  end.

Definition step (g : goroutine) (s : State) : option State :=
  if crashed s then None
  else match main s, g with
       | MReturned, _ => None     (* the process has ended *)
       | _, GMain => step_main s
       | _, GWorker i => step_worker i s
       | _, GCloser => step_closer s
       end.

(** Running a schedule: the goroutine named steps, in turn. *)
Fixpoint run (schedule : list goroutine) (s : State) : option State :=
  match schedule with
  | [] => Some s
  | g :: schedule' => s' ← step g s; run schedule' s'
  end.

(** The states the program can be in. *)
Definition reachable (s : State) : Prop :=
  ∃ schedule, run schedule init = Some s.

(** [main] returned and nothing panicked. *)
Definition terminated (s : State) : Prop :=
  main s = MReturned ∧ crashed s = false.

(** *** What the proofs count *)

(** A worker holds a slot of [semaphore] from its start to the deferred
    receive; it is counted by the [WaitGroup] until [wg.Done()]; it is
    in its external fetch or summarize step while at [WRun]. *)
Definition holds_slot (pc : worker_pc) : nat :=
  match pc with WRun _ | WSend _ | WRelease _ => 1 | _ => 0 end.
Definition pending (pc : worker_pc) : nat :=
  match pc with WExited => 0 | _ => 1 end.
Definition executing (pc : worker_pc) : nat :=
  match pc with WRun _ => 1 | _ => 0 end.
Definition past_send (pc : worker_pc) : nat :=
  match pc with WRun _ | WSend _ => 0 | _ => 1 end.
Definition has_sent (pc : worker_pc) : bool :=
  match pc with WRelease Sent | WDone Sent | WExited => true | _ => false end.

Definition total (f : worker_pc → nat) (ws : list worker_pc) : nat :=
  sum_list_with f ws.

(** The slot and the [WaitGroup] unit the main goroutine has taken for
    a worker it has not started yet. *)
Definition slot_in_hand (pc : main_pc) : nat :=
  match pc with MGo _ => 1 | _ => 0 end.
Definition unit_in_hand (pc : main_pc) : nat :=
  match pc with MAcquire _ | MGo _ => 1 | _ => 0 end.
Definition dispatching (pc : main_pc) : option nat :=
  match pc with MAdd i | MAcquire i | MGo i => Some i | _ => None end.
Definition before_closer (pc : main_pc) : bool :=
  match pc with MAdd _ | MAcquire _ | MGo _ | MGoCloser => true | _ => false end.
Definition collected (pc : main_pc) : bool :=
  match pc with MReport | MReturned => true | _ => false end.

(** The result worker [i] computes for [v]. *)
Definition result_of (i : nat) (v : VideoDetails) (r : ProcessingResult) : Prop :=
  ∃ h, worker v cfg geminiClient (world i) [] = Ok r h.

(** The body of worker [i] panics. *)
Definition panics (i : nat) : Prop :=
  ∃ v h, videos !! i = Some v ∧ worker v cfg geminiClient (world i) [] = Panicked h.

(** The invariant of the run. *)
Record Inv (s : State) : Prop := {
  inv_semaphore :
    semaphore s = total holds_slot (workers s) + slot_in_hand (main s);
  inv_capacity : semaphore s ≤ Z.to_nat (ConcurrencyLimit cfg);
  inv_wg :
    wg s = Z.of_nat (total pending (workers s) + unit_in_hand (main s));
  inv_dispatch :
    match dispatching (main s) with
    | Some i => length (workers s) = i ∧ i < length videos
    | None => length (workers s) = length videos
    end;
  inv_closer_started :
    if before_closer (main s) then closer s = None else is_Some (closer s);
  inv_closer_waits :
    closer s = None ∨ closer s = Some CWait → closed s = false;
  inv_closer_past :
    closer s = Some CClose ∨ closer s = Some CExited →
    total pending (workers s) = 0;
  inv_closed : closed s = true ↔ closer s = Some CExited;
  inv_collected :
    collected (main s) = true → closed s = true ∧ resultsChannel s = [];
  inv_channel : length (resultsChannel s) ≤ total past_send (workers s);
  inv_run : ∀ i v, workers s !! i = Some (WRun v) → videos !! i = Some v;
  inv_send :
    ∀ i r, workers s !! i = Some (WSend r) →
           ∃ v, videos !! i = Some v ∧ result_of i v r;
  inv_in_channel :
    ∀ r, r ∈ resultsChannel s → ∃ i v, videos !! i = Some v ∧ result_of i v r;
  inv_in_map :
    ∀ k r, allResults s !! k = Some r →
           ∃ i v, videos !! i = Some v ∧ result_of i v r ∧ k = ID v;
  inv_printed :
    printed s = (if decide (main s = MReturned)
                 then Some (report videos (allResults s)) else None);
  inv_panicking :
    ∀ i, workers s !! i = Some (WRelease Panicking)
         ∨ workers s !! i = Some (WDone Panicking) → panics i;
  inv_crashed :
    crashed s = true → (ConcurrencyLimit cfg < 0)%Z ∨ ∃ i, panics i
}.

(** With unique identifiers: what a worker has sent is in the channel
    or in the map, under the identifier of its video. *)
Definition Delivered (s : State) : Prop :=
  crashed s = false →
  ∀ i pc, workers s !! i = Some pc → has_sent pc = true →
    ∃ v r, videos !! i = Some v ∧ result_of i v r
           ∧ (r ∈ resultsChannel s ∨ allResults s !! ID v = Some r).

(** The number of times worker [i] runs its deferred [<-semaphore]
    along a schedule started in [s]. *)
Definition releasing (i : nat) (g : goroutine) (s : State) : nat :=
  match g, workers s !! i with
  | GWorker j, Some (WRelease _) => if decide (i = j) then 1 else 0
  | _, _ => 0
  end.

Fixpoint releases (i : nat) (schedule : list goroutine) (s : State) : nat :=
  match schedule with
  | [] => 0
  | g :: schedule' =>
      match step g s with
      | Some s' => releasing i g s + releases i schedule' s'
      | None => 0
      end
  end.

(** Whether worker [i] is past its deferred receive. *)
Definition released (i : nat) (s : State) : nat :=
  match workers s !! i with
  | Some (WDone _) | Some WExited => 1
  | _ => 0
  end.

(** The statements left to run: every step makes it smaller. *)
Definition main_weight (pc : main_pc) : nat :=
  match pc with
  | MAdd i => 8 * (length videos - i) + 5
  | MAcquire i => 8 * (length videos - i) + 4
  | MGo i => 8 * (length videos - i) + 3
  | MGoCloser => 5
  | MCollect => 2
  | MReport => 1
  | MReturned => 0
  end.
Definition worker_weight (pc : worker_pc) : nat :=
  match pc with
  | WRun _ => 5
  | WSend _ => 4
  | WRelease _ => 2
  | WDone _ => 1
  | WExited => 0
  end.
Definition closer_weight (c : option closer_pc) : nat :=
  match c with
  | Some CWait => 2
  | Some CClose => 1
  | _ => 0
  end.
Definition measure (s : State) : nat :=
  if crashed s then 0
  else main_weight (main s) + total worker_weight (workers s)
       + closer_weight (closer s) + length (resultsChannel s).

(** What the report loop has written to standard output. *)
Definition printed_entries (s : State) : list ReportEntry :=
  match printed s with
  | Some t => entries t
  | None => []
  end.

End Run.
End Pipeline.

(** ** Concrete runs

    Worlds, videos and schedules on which the properties below are
    exercised. *)

Module Scenario.
Import Strings Acquirer Summarizer Worker Report Pipeline.

(** The configuration [initializeAppConfig] builds when only the two keys
    are set. *)
Definition defaultConfig : AppConfig := {|
  YoutubeAPIKey := "youtube-key";
  GeminiAPIKey := "gemini-key";
  PlaylistID := defaultPlaylistID;
  GeminiModel := defaultGeminiModel;
  TempTranscriptDir := defaultTempTranscriptDir;
  MaxTranscriptRetries := defaultMaxTranscriptRetries;
  TranscriptRetryDelay := defaultTranscriptRetryDelay;
  LLMTimeout := defaultLLMTimeout;
  ConcurrencyLimit := defaultConcurrencyLimit;
  SummaryWordCount := defaultSummaryWordCount |}.

(** The same with two slots only. *)
Definition twoSlots : AppConfig := {|
  YoutubeAPIKey := "youtube-key";
  GeminiAPIKey := "gemini-key";
  PlaylistID := defaultPlaylistID;
  GeminiModel := defaultGeminiModel;
  TempTranscriptDir := defaultTempTranscriptDir;
  MaxTranscriptRetries := defaultMaxTranscriptRetries;
  TranscriptRetryDelay := defaultTranscriptRetryDelay;
  LLMTimeout := defaultLLMTimeout;
  ConcurrencyLimit := 2;
  SummaryWordCount := defaultSummaryWordCount |}.

Definition client : option GenerativeModel := Some {| ModelName := defaultGeminiModel |}.

Definition join (dir file : string) : string := dir +:+ "/" +:+ file.

Definition hello : Subtitles :=
  {| Items := [ {| Lines := [ {| LineItems := [ {| Text := "hello" |};
                                                 {| Text := "world" |} ] |} ] |} ] |}.

Definition answer (text : string) : GenerateContentResponse + error :=
  inl {| Candidates := [ {| CandidateContent := Some {| Parts := [PartText text] |} |} ] |}.

(** yt-dlp succeeds at once, the file is there, the model answers [text]. *)
Definition smooth (text : string) : World := {|
  filepath_Join := join;
  os_MkdirAll := λ _ _, None;
  cmd_CombinedOutput := λ _ _ _, ("[info] Writing video subtitles", None);
  filepath_Glob := λ _ pattern, ([pattern], None);
  astisub_OpenFile := λ _ _, inl hello;
  genai_GenerateContent := λ _ _ _ _, answer text |}.

(** yt-dlp fails and says that the video has no subtitles. *)
Definition subtitleless : World := {|
  filepath_Join := join;
  os_MkdirAll := λ _ _, None;
  cmd_CombinedOutput := λ _ _ _,
    ("WARNING: video has no subtitles", Some (errorString "exit status 1"));
  filepath_Glob := λ _ _, ([], None);
  astisub_OpenFile := λ _ _, inr (errorString "open: no such file");
  genai_GenerateContent := λ _ _ _ _, answer "unused" |}.

(** yt-dlp fails every time, for a reason that may pass. *)
Definition offline : World := {|
  filepath_Join := join;
  os_MkdirAll := λ _ _, None;
  cmd_CombinedOutput := λ _ _ _,
    ("ERROR: unable to download webpage", Some (errorString "exit status 1"));
  filepath_Glob := λ _ _, ([], None);
  astisub_OpenFile := λ _ _, inr (errorString "open: no such file");
  genai_GenerateContent := λ _ _ _ _, answer "unused" |}.

(** yt-dlp succeeds but leaves no file. *)
Definition fileless : World := {|
  filepath_Join := join;
  os_MkdirAll := λ _ _, None;
  cmd_CombinedOutput := λ _ _ _, ("[info] done", None);
  filepath_Glob := λ _ _, ([], None);
  astisub_OpenFile := λ _ _, inr (errorString "open: no such file");
  genai_GenerateContent := λ _ _ _ _, answer "unused" |}.

Definition videoA : VideoDetails := {| ID := "a"; Title := "Alpha" |}.
Definition videoB : VideoDetails := {| ID := "b"; Title := "Beta" |}.
Definition videoC : VideoDetails := {| ID := "c"; Title := "Gamma" |}.
Definition three : list VideoDetails := [videoA; videoB; videoC].

(** Worker [i] gets the summary ["summary i"]. *)
Definition worlds (i : nat) : World := smooth ("summary " +:+ pretty i).

Definition dispatch : list goroutine := [GMain; GMain; GMain].
Definition whole (i : nat) : list goroutine :=
  [GWorker i; GWorker i; GWorker i; GWorker i].

(** All three workers are started; they run to their end in the order
    2, 1, 0; the channel is closed; the results are collected and the
    report is written. *)
Definition reversed : list goroutine :=
  dispatch ++ dispatch ++ dispatch ++ [GMain]
  ++ whole 2 ++ whole 1 ++ whole 0
  ++ [GCloser; GCloser] ++ [GMain; GMain; GMain] ++ [GMain; GMain].

Definition after_reversed : State :=
  default (init three defaultConfig)
          (run three defaultConfig client worlds reversed (init three defaultConfig)).

(** With two slots: two workers are started and are in their bodies, and
    the main goroutine has called [wg.Add(1)] for the third. *)
Definition saturating : list goroutine := dispatch ++ dispatch ++ [GMain].

Definition saturated : State :=
  default (init three twoSlots)
          (run three twoSlots client worlds saturating (init three twoSlots)).

(** One video whose summary comes back as white space. *)
Definition blank : nat → World := λ _, smooth "  ".

Definition single : list goroutine :=
  dispatch ++ [GMain] ++ whole 0 ++ [GCloser; GCloser] ++ [GMain] ++ [GMain; GMain].

Definition after_blank : State :=
  default (init [videoA] defaultConfig)
          (run [videoA] defaultConfig client blank single (init [videoA] defaultConfig)).

(** A summarize function that panics on the empty transcript. *)
Definition strict (g : GenerativeModel) (transcript : string) (cfg : AppConfig)
  : M (string * option error) :=
  if decide (transcript = "") then panic
  else summarizeTranscriptWithGemini g transcript cfg.

End Scenario.

(** ** More kinds of events *)

Module Events.

Definition is_mkdir (e : Event) : bool :=
  match e with EvMkdirAll _ => true | _ => false end.
Definition is_glob (e : Event) : bool :=
  match e with EvGlob _ => true | _ => false end.
Definition is_open (e : Event) : bool :=
  match e with EvOpenFile _ => true | _ => false end.
Definition is_remove (e : Event) : bool :=
  match e with EvRemove _ => true | _ => false end.

(** The events of the retry loop: a run of yt-dlp with [args], a sleep of
    [TranscriptRetryDelay]. *)
Definition retry_event (cfg : AppConfig) (args : list string) (e : Event) : Prop :=
  e = EvExec "yt-dlp" args ∨ e = EvSleep (TranscriptRetryDelay cfg).

(** [cause] is an error the outside world reported to some call. *)
Definition reported (w : World) (cause : error) : Prop :=
  (∃ h path, os_MkdirAll w h path = Some cause)
  ∨ (∃ h name args, (cmd_CombinedOutput w h name args).2 = Some cause)
  ∨ (∃ h pattern, (filepath_Glob w h pattern).2 = Some cause)
  ∨ (∃ h path, astisub_OpenFile w h path = inr cause)
  ∨ (∃ h g prompt timeout, genai_GenerateContent w h g prompt timeout = inr cause).

(** The history a computation leaves, whether it returned or panicked. *)
Definition final {A : Type} (r : Result A) : History :=
  match r with
  | Ok _ h => h
  | Panicked h => h
  end.

(** The text of the first part of the first candidate, if it is a text. *)
Definition first_text (resp : GenerateContentResponse) : option string :=
  match Candidates resp with
  | {| CandidateContent := Some {| Parts := PartText text :: _ |} |} :: _ => Some text
  | _ => None
  end.

End Events.

(** ** More about the states of the run *)

Module Accounting.
Import Pipeline.

(** Without any assumption on the identifiers: the result of a worker
    that has sent it is in the channel, or the map has an entry under the
    identifier of its video. *)
Definition Accounted (videos : list VideoDetails) (cfg : AppConfig)
    (geminiClient : option GenerativeModel) (world : nat → World) (s : State) : Prop :=
  crashed s = false →
  ∀ i pc, workers s !! i = Some pc → has_sent pc = true →
    ∃ v r, videos !! i = Some v ∧ result_of cfg geminiClient world i v r
           ∧ (r ∈ resultsChannel s ∨ is_Some (allResults s !! ID v)).

(** The videos of the list without an entry in the map. *)
Definition missing (allResults : gmap string ProcessingResult)
    (video : VideoDetails) : bool :=
  bool_decide (allResults !! ID video = None).

End Accounting.

(** ** The playlist *)

Module Playlist.
Import Strings.

(** The parts of [youtube.PlaylistItem] and of
    [youtube.PlaylistItemListResponse] the program reads; [Snippet] and
    [ContentDetails] are pointers. *)
Record PlaylistItemSnippet : Type := { Snippet_Title : string }.
Record PlaylistItemContentDetails : Type := { VideoId : string }.
Record PlaylistItem : Type := {
  Id : string;
  Snippet : option PlaylistItemSnippet;
  ContentDetails : option PlaylistItemContentDetails
}.
Record PlaylistItemListResponse : Type := {
  Items : list PlaylistItem;
  NextPageToken : string
}.

(** [*youtube.Service]: what [call.Do()] returns for a playlist and a
    page token (the empty token is the request without [PageToken]), by
    the number of calls made before. *)
Definition Service : Type :=
  nat → string → string → PlaylistItemListResponse + error.

(** Lines 127-134: the video appended for an item, if any. *)
Definition keep (item : PlaylistItem) : option VideoDetails :=
  match Snippet item, ContentDetails item with
  | Some snippet, Some details =>
      if decide (VideoId details ≠ "")
      then Some {| ID := VideoId details; Title := Snippet_Title snippet |}
      else None
  | _, _ => None
  end.

(** The videos the inner loop appends for one response. *)
Definition page_videos (response : PlaylistItemListResponse) : list VideoDetails :=
  omap keep (Items response).

(** The loop of lines 115-140, entered with [calls] calls made,
    [nextPageToken] and [videos]; [fuel] bounds the iterations, [None]
    is a loop still running when it is used up.  The result carries the
    number of calls made. *)
Fixpoint pages (service : Service) (playlistID : string) (fuel calls : nat)
    (nextPageToken : string) (videos : list VideoDetails)
  : option (list VideoDetails * option error * nat) :=
  match fuel with
  | O => None
  | S fuel' =>
      match service calls playlistID nextPageToken with
      | inr err =>
          Some ([], Some (wrapError ("PlaylistItems.List call failed for playlist "
                                     +:+ playlistID +:+ ": " +:+ Error err) err),
                S calls)
      | inl response =>
          let videos := videos ++ page_videos response in
          if decide (NextPageToken response = "")
          then Some (videos, None, S calls)
          else pages service playlistID fuel' (S calls) (NextPageToken response) videos
      end
  end.

(** Lines 112-143. *)
Definition getPlaylistVideos (service : Service) (playlistID : string) (fuel : nat)
  : option (list VideoDetails * option error * nat) :=
  pages service playlistID fuel 0 "" [].

(** The responses of a listing that ends: each is the answer to the
    request for the token of the one before, and the last one alone has
    no next token. *)
Fixpoint chain (service : Service) (playlistID : string) (calls : nat)
    (token : string) (responses : list PlaylistItemListResponse) : Prop :=
  match responses with
  | [] => False
  | response :: rest =>
      service calls playlistID token = inl response
      ∧ match rest with
        | [] => NextPageToken response = ""
        | _ => NextPageToken response ≠ ""
               ∧ chain service playlistID (S calls) (NextPageToken response) rest
        end
  end.

End Playlist.

(** ** The start of [main] *)

Module Startup.
Import Strings Playlist.

(** The environment after [loadEnvironmentFile]. *)
Record Environment : Type := {
  YOUTUBE_API_KEY : string;
  GEMINI_API_KEY : string;
  PLAYLIST_ID : string;
  GEMINI_MODEL : string
}.

(** The services [main] sets up: the error of [genai.NewClient] and of
    [youtube.NewService] for a key, if any, and the YouTube service. *)
Record Services : Type := {
  genai_NewClient : string → option error;
  youtube_NewService : string → option error;
  youtubeService : Service
}.

(** Lines 103-109, on the error of [youtube.NewService]. *)
Definition getYouTubeService (sv : Services) (apiKey : string) : option error :=
  match youtube_NewService sv apiKey with
  | Some err => Some (wrapError ("youtube.NewService: " +:+ Error err) err)
  | None => None
  end.

(** How [main] leaves its first part: by [log.Fatalf], by a panic, by
    the [return] of line 316, or into the processing of [videos]. *)
Inductive Outcome : Type :=
| Fatal (message : string)
| NilConfig
| NoVideos
| Processing (cfg : AppConfig) (geminiClient : option GenerativeModel)
             (videos : list VideoDetails).

(** Lines 293-302. *)
Definition newGeminiClient (sv : Services) (cfg : AppConfig) : option GenerativeModel :=
  if decide (GeminiAPIKey cfg ≠ "")
  then match genai_NewClient sv (GeminiAPIKey cfg) with
       | Some _ => None
       | None => Some {| ModelName := GeminiModel cfg |}
       end
  else None.

(** Lines 264-317 of [main]. *)
Definition startup (env : Environment) (sv : Services) (fuel : nat) : option Outcome :=
  match initializeAppConfig (YOUTUBE_API_KEY env) (GEMINI_API_KEY env)
                            (PLAYLIST_ID env) (GEMINI_MODEL env) with
  | (_, Some err) =>
      Some (Fatal ("CRITICAL: Failed to initialize application configuration: "
                   +:+ Error err))
  | (None, None) => Some NilConfig     (* line 276 dereferences the nil [cfg] *)
  | (Some cfg, None) =>
      let geminiClient := newGeminiClient sv cfg in
      match getYouTubeService sv (YoutubeAPIKey cfg) with
      | Some err =>
          Some (Fatal ("CRITICAL: Failed to create YouTube service: " +:+ Error err))
      | None =>
          match getPlaylistVideos (youtubeService sv) (PlaylistID cfg) fuel with
          | None => None
          | Some (_, Some err, _) =>
              Some (Fatal ("CRITICAL: Failed to fetch video details from playlist "
                           +:+ PlaylistID cfg +:+ ": " +:+ Error err))
          | Some (videos, None, _) =>
              if decide (length videos = 0) then Some NoVideos
              else Some (Processing cfg geminiClient videos)
          end
      end
  end.

End Startup.

(** ** More worlds, runs and playlists *)

Module Cases.
Import Strings Acquirer Summarizer Worker Report Pipeline Playlist Startup Scenario.


(** A configuration that allows no attempt. *)
Definition noAttempts : AppConfig := {|
  YoutubeAPIKey := "youtube-key";
  GeminiAPIKey := "gemini-key";
  PlaylistID := defaultPlaylistID;
  GeminiModel := defaultGeminiModel;
  TempTranscriptDir := defaultTempTranscriptDir;
  MaxTranscriptRetries := 0;
  TranscriptRetryDelay := defaultTranscriptRetryDelay;
  LLMTimeout := defaultLLMTimeout;
  ConcurrencyLimit := defaultConcurrencyLimit;
  SummaryWordCount := defaultSummaryWordCount |}.

(** The model answers with a candidate that has no content. *)
Definition contentless : World := {|
  filepath_Join := join;
  os_MkdirAll := λ _ _, None;
  cmd_CombinedOutput := λ _ _ _, ("[info] Writing video subtitles", None);
  filepath_Glob := λ _ pattern, ([pattern], None);
  astisub_OpenFile := λ _ _, inl hello;
  genai_GenerateContent := λ _ _ _ _,
    inl {| Candidates := [ {| CandidateContent := None |} ] |} |}.

Definition gemini : GenerativeModel := {| ModelName := defaultGeminiModel |}.

(** The same video twice in the playlist; the second worker finishes
    first. *)
Definition twice : list VideoDetails := [videoA; videoA].
Definition doubled : list goroutine :=
  dispatch ++ dispatch ++ [GMain]
  ++ whole 1 ++ whole 0
  ++ [GCloser; GCloser] ++ [GMain; GMain] ++ [GMain; GMain].
Definition after_doubled : State :=
  default (init twice defaultConfig)
          (run twice defaultConfig client worlds doubled (init twice defaultConfig)).

(** One video, whose worker panics on the answer of the model. *)
Definition crashing : list goroutine := dispatch ++ [GWorker 0; GWorker 0; GWorker 0].
Definition after_crashing : State :=
  default (init [videoA] defaultConfig)
          (run [videoA] defaultConfig client (λ _, contentless) crashing
               (init [videoA] defaultConfig)).

(** One video, no Gemini client. *)
Definition after_skipped : State :=
  default (init [videoA] defaultConfig)
          (run [videoA] defaultConfig None worlds single (init [videoA] defaultConfig)).

(** The run of [reversed], to its end. *)
Definition reversed_report : Tally := default start (printed after_reversed).
Definition skipped_report : Tally := default start (printed after_skipped).

(** A playlist of two pages, with one item that has no details. *)
Definition item (id title : string) : PlaylistItem := {|
  Id := "item-" +:+ id;
  Snippet := Some {| Snippet_Title := title |};
  ContentDetails := Some {| VideoId := id |} |}.
Definition deleted : PlaylistItem := {|
  Id := "item-x";
  Snippet := Some {| Snippet_Title := "Deleted video" |};
  ContentDetails := None |}.
Definition firstPage : PlaylistItemListResponse := {|
  Items := [item "a" "Alpha"; deleted; item "b" "Beta"];
  NextPageToken := "page2" |}.
Definition secondPage : PlaylistItemListResponse := {|
  Items := [item "c" "Gamma"];
  NextPageToken := "" |}.

Definition twoPages : Service := λ _ _ token,
  if decide (token = "") then inl firstPage
  else if decide (token = "page2") then inl secondPage
  else inr (errorString "invalid page token").


(** Every request is answered with a first page. *)
Definition endless : Service := λ _ _ _, inl firstPage.

Definition environment : Environment := {|
  YOUTUBE_API_KEY := "youtube-key";
  GEMINI_API_KEY := "gemini-key";
  PLAYLIST_ID := "";
  GEMINI_MODEL := "" |}.
Definition keyless : Environment := {|
  YOUTUBE_API_KEY := "";
  GEMINI_API_KEY := "gemini-key";
  PLAYLIST_ID := "";
  GEMINI_MODEL := "" |}.
Definition services : Services := {|
  genai_NewClient := λ _, None;
  youtube_NewService := λ _, None;
  youtubeService := twoPages |}.

End Cases.


(** * The configuration *)

Module ConfigFacts.

(** Whatever the environment, a configuration [initializeAppConfig]
    returns has three attempts, a delay of five seconds, a time limit of
    sixty seconds and five slots. *)
Lemma initializeAppConfig_defaults youtubeKey geminiKey playlist model cfg err :
  initializeAppConfig youtubeKey geminiKey playlist model = (Some cfg, err) →
  err = None
  ∧ MaxTranscriptRetries cfg = 3%Z
  ∧ TranscriptRetryDelay cfg = 5000000000%Z
  ∧ LLMTimeout cfg = 60000000000%Z
  ∧ ConcurrencyLimit cfg = 5%Z.
Proof.
  unfold initializeAppConfig. simpl. case_decide; intros Heq; simplify_eq. done.
Qed.

Lemma initializeAppConfig_keys :
  initializeAppConfig "youtube-key" "gemini-key" "" "" = (Some Scenario.defaultConfig, None).
Proof. reflexivity. Qed.

End ConfigFacts.

(** * Properties of the sequential code *)

Module AcquirerFacts.
Import Strings Acquirer.

Lemma count_app p (h1 h2 : History) : count p (h1 ++ h2) = count p h1 + count p h2.
Proof. unfold count. by rewrite List.filter_app, length_app. Qed.

Lemma count_snoc p (h : History) e :
  count p (h ++ [e]) = count p h + (if p e then 1 else 0).
Proof. rewrite count_app. unfold count. simpl. by destruct (p e). Qed.

Ltac run_m :=
  unfold mbind, mret, M_bind, M_ret, Join, MkdirAll, CombinedOutput, Sleep, Glob,
    OpenFile, Remove, GenerateContent, panic; simpl.

Lemma fetch_unfold videoID cfg w h :
  fetch videoID cfg w h =
  attempts cfg (fetch_args w videoID cfg) (Z.to_nat (MaxTranscriptRetries cfg)) 1%Z "" None w h.
Proof. reflexivity. Qed.

Lemma attempts_signal cfg args n attempt output err w h :
  no_subtitles (cmd_CombinedOutput w h "yt-dlp" args).1 = true →
  attempts cfg args (S n) attempt output err w h
  = Ok (Returned ("", None)) (h ++ [EvExec "yt-dlp" args]).
Proof.
  intros Hsig. simpl. run_m.
  destruct (cmd_CombinedOutput w h "yt-dlp" args) as [out [e|]]; simpl in *;
    by rewrite Hsig.
Qed.

Lemma attempts_transient cfg args w :
  always_transient w args →
  ∀ n attempt output err h,
    (attempt + Z.of_nat n = MaxTranscriptRetries cfg + 1)%Z →
    ∃ h' output' err',
      attempts cfg args n attempt output err w h = Ok (Left output' err') h'
      ∧ count is_exec h' = count is_exec h + n
      ∧ count is_sleep h' = count is_sleep h + (n - 1)
      ∧ (0 < n → ∃ hlast e, h' = hlast ++ [EvExec "yt-dlp" args]
                   ∧ cmd_CombinedOutput w hlast "yt-dlp" args = (output', Some e)
                   ∧ err' = Some e).
Proof.
  intros Hw. induction n as [|n IH]; intros attempt output err h Hn.
  - exists h, output, err. simpl. run_m. repeat split; try lia.
  - destruct (Hw h) as (out & e & Hout & Hsig).
    simpl. run_m. rewrite Hout, Hsig.
    case_bool_decide as Hlt; simpl.
    + destruct (IH (attempt + 1)%Z out (Some e) ((h ++ [EvExec "yt-dlp" args]) ++ [EvSleep (TranscriptRetryDelay cfg)]))
        as (h' & o' & e' & Hrun & Hex & Hsl & Hlast); [lia|].
      exists h', o', e'. rewrite Hrun. rewrite !count_snoc in Hex, Hsl. simpl in *.
      split; [done|]. split; [lia|]. split; [lia|].
      intros _. apply Hlast. lia.
    + assert (n = 0) as -> by lia. simpl. run_m.
      exists (h ++ [EvExec "yt-dlp" args]), out, (Some e).
      rewrite !count_snoc. simpl.
      split; [done|]. split; [lia|]. split; [lia|].
      intros _. by exists h, e.
Qed.


Lemma attempts_total cfg args w :
  ∀ n attempt output err h,
    ∃ exit h', attempts cfg args n attempt output err w h = Ok exit h'
               ∧ count is_generate h' = count is_generate h.
Proof.
  induction n as [|n IH]; intros attempt output err h.
  - by exists (Left output err), h.
  - simpl. run_m.
    destruct (cmd_CombinedOutput w h "yt-dlp" args) as [out [e|]];
      destruct (no_subtitles out); simpl;
      try (eexists _, _; split; [done|]; by rewrite count_snoc; simpl; lia).
    case_bool_decide; simpl.
    + destruct (IH (attempt + 1)%Z out (Some e)
                  ((h ++ [EvExec "yt-dlp" args]) ++ [EvSleep (TranscriptRetryDelay cfg)]))
        as (x & h' & -> & Hc).
      exists x, h'. split; [done|]. rewrite Hc, !count_snoc. simpl. lia.
    + destruct (IH (attempt + 1)%Z out (Some e) (h ++ [EvExec "yt-dlp" args]))
        as (x & h' & -> & Hc).
      exists x, h'. split; [done|]. rewrite Hc, !count_snoc. simpl. lia.
Qed.

Lemma find_vtt_total videoID cfg w h :
  ∃ found h', find_vtt videoID cfg w h = Ok found h'
              ∧ count is_generate h' = count is_generate h.
Proof.
  unfold find_vtt. run_m.
  destruct (filepath_Glob w h _) as [[|m ms] [ge|]]; simpl;
    try (eexists _, _; split; [done|]; by rewrite ?count_snoc; simpl; lia).
  destruct (filepath_Glob w _ _) as [ms' ?]; simpl.
  eexists _, _; split; [done|]. rewrite !count_snoc; simpl; lia.
Qed.

Lemma parse_total videoID path w h :
  ∃ r, parse videoID path w h = Ok r (h ++ [EvOpenFile path]).
Proof.
  unfold parse. run_m.
  destruct (astisub_OpenFile w h path) as [subs|e]; simpl; [|by eexists].
  case_decide; by eexists.
Qed.

(** [getVideoTranscript] always returns, and never calls the model. *)
Lemma getVideoTranscript_total videoID cfg w h :
  ∃ r h', getVideoTranscript videoID cfg w h = Ok r h'
          ∧ count is_generate h' = count is_generate h.
Proof.
  unfold getVideoTranscript. run_m.
  destruct (os_MkdirAll w h _) as [e|]; simpl.
  { eexists _, _; split; [done|]. rewrite count_snoc; simpl; lia. }
  rewrite fetch_unfold.
  destruct (attempts_total cfg (fetch_args w videoID cfg) w
              (Z.to_nat (MaxTranscriptRetries cfg)) 1%Z "" None
              (h ++ [EvMkdirAll (TempTranscriptDir cfg)])) as (x & h1 & -> & Hc1).
  rewrite count_snoc in Hc1; simpl in Hc1.
  destruct x as [r|output [e|]]; simpl;
    try (eexists _, _; split; [done|]; lia).
  destruct (find_vtt_total videoID cfg w h1) as (found & h2 & -> & Hc2).
  destruct found as [[|path ms]|ge]; simpl;
    try (eexists _, _; split; [done|]; lia).
  destruct (parse_total videoID path w h2) as (r & ->). simpl.
  eexists _, _; split; [done|]. rewrite !count_snoc; simpl; lia.
Qed.

(** C5. When the first run of yt-dlp shows the no-subtitles signal in its
    output, whether the command succeeded or failed, [getVideoTranscript]
    returns the empty transcript without error (Absent), having run the
    command exactly once and slept not at all. *)
Theorem C5_no_subtitles_short_circuits w videoID cfg h :
  os_MkdirAll w h (TempTranscriptDir cfg) = None →
  (0 < MaxTranscriptRetries cfg)%Z →
  no_subtitles (first_fetch w videoID cfg h).1 = true →
  ∃ r h',
    getVideoTranscript videoID cfg w h = Ok r h'
    ∧ outcome r = Absent
    ∧ h' = h ++ [EvMkdirAll (TempTranscriptDir cfg);
                 EvExec "yt-dlp" (fetch_args w videoID cfg)]
    ∧ count is_exec h' = S (count is_exec h)
    ∧ count is_sleep h' = count is_sleep h.
Proof.
  intros Hmk Hmax Hsig.
  exists ("", None), (h ++ [EvMkdirAll (TempTranscriptDir cfg);
                           EvExec "yt-dlp" (fetch_args w videoID cfg)]).
  split; [|split; [done|split; [done|]]].
  - unfold getVideoTranscript. run_m. rewrite Hmk. simpl.
    rewrite fetch_unfold.
    destruct (Z.to_nat (MaxTranscriptRetries cfg)) as [|n] eqn:Hn; [lia|].
    rewrite attempts_signal by exact Hsig. simpl.
    by rewrite <- app_assoc.
  - rewrite !count_app. unfold count; simpl. lia.
Qed.

(** C6. When every run of yt-dlp fails without the no-subtitles signal,
    [getVideoTranscript] runs the command [MaxTranscriptRetries] times,
    sleeps between the attempts only, and returns an error that wraps the
    error of the last run and quotes its output. *)
Theorem C6_transient_failures_exhaust_retries w videoID cfg h :
  os_MkdirAll w h (TempTranscriptDir cfg) = None →
  (0 < MaxTranscriptRetries cfg)%Z →
  always_transient w (fetch_args w videoID cfg) →
  ∃ hlast output e,
    cmd_CombinedOutput w hlast "yt-dlp" (fetch_args w videoID cfg) = (output, Some e)
    ∧ getVideoTranscript videoID cfg w h
      = Ok ("", Some (wrapError
              ("yt-dlp command for video " +:+ videoID +:+ " failed after "
               +:+ pretty (MaxTranscriptRetries cfg) +:+ " attempts: " +:+ Error e
               +:+ nl +:+ "Last Output: " +:+ output) e))
           (hlast ++ [EvExec "yt-dlp" (fetch_args w videoID cfg)])
    ∧ count is_exec (hlast ++ [EvExec "yt-dlp" (fetch_args w videoID cfg)])
      = count is_exec h + Z.to_nat (MaxTranscriptRetries cfg)
    ∧ count is_sleep (hlast ++ [EvExec "yt-dlp" (fetch_args w videoID cfg)])
      = count is_sleep h + (Z.to_nat (MaxTranscriptRetries cfg) - 1).
Proof.
  intros Hmk Hmax Hw.
  destruct (attempts_transient cfg _ w Hw (Z.to_nat (MaxTranscriptRetries cfg)) 1%Z "" None
              (h ++ [EvMkdirAll (TempTranscriptDir cfg)]))
    as (h' & output & err & Hrun & Hex & Hsl & Hlast); [lia|].
  destruct Hlast as (hlast & e & -> & Hans & ->); [lia|].
  exists hlast, output, e. split; [done|].
  split; [|split; [rewrite Hex|rewrite Hsl]; rewrite count_snoc; simpl; lia].
  unfold getVideoTranscript. run_m. rewrite Hmk. simpl.
  rewrite fetch_unfold, Hrun. done.
Qed.

(** C7. After a fetch that succeeded without the no-subtitles signal, when
    no [.vtt] file is found, or the file found parses to a text that is
    empty once trimmed, [getVideoTranscript] returns the empty transcript
    without error (Absent), not a failure. *)
Theorem C7_missing_or_empty_artifact_is_absent w videoID cfg h output h1 matches h2 :
  os_MkdirAll w h (TempTranscriptDir cfg) = None →
  fetch videoID cfg w (h ++ [EvMkdirAll (TempTranscriptDir cfg)]) = Ok (Left output None) h1 →
  find_vtt videoID cfg w h1 = Ok (inl matches) h2 →
  (matches = []
   ∨ ∃ vttFilePath subs,
       head matches = Some vttFilePath
       ∧ astisub_OpenFile w h2 vttFilePath = inl subs
       ∧ TrimSpace (transcript_text subs) = "") →
  ∃ r h', getVideoTranscript videoID cfg w h = Ok r h' ∧ r = ("", None) ∧ outcome r = Absent.
Proof.
  intros Hmk Hfetch Hfind Hcase.
  unfold getVideoTranscript. run_m. rewrite Hmk. simpl. rewrite Hfetch, Hfind.
  destruct Hcase as [->|(path & subs & Hhd & Hopen & Hempty)].
  - by eexists _, _.
  - destruct matches as [|p ms]; [done|]. simpl in Hhd. simplify_eq.
    unfold parse. run_m. rewrite Hopen. simpl.
    rewrite decide_True by done. by eexists _, _.
Qed.

End AcquirerFacts.

Module WorkerFacts.
Import Strings Acquirer Summarizer Worker Report AcquirerFacts.

(** The result of the body of a worker, by the outcome of the
    acquisition and of the summarize call. *)
Lemma worker_with_cases summarize w v cfg client h :
  ∃ acquired h1,
    getVideoTranscript (ID v) cfg w h = Ok acquired h1
    ∧ count is_generate h1 = count is_generate h
    ∧ match outcome acquired with
      | Failure cause =>
          worker_with summarize v cfg client w h
          = Ok {| Details := v; Summary := ""; Err := Some cause |} h1
      | Absent =>
          worker_with summarize v cfg client w h
          = Ok {| Details := v; Summary := ""; Err := Some errNoTranscript |} h1
      | TranscriptText transcript =>
          transcript ≠ "" ∧
          match client with
          | None =>
              worker_with summarize v cfg client w h
              = Ok {| Details := v; Summary := ""; Err := Some errSkipped |} h1
          | Some g =>
              match summarize g transcript cfg w h1 with
              | Ok (_, Some cause) h2 =>
                  worker_with summarize v cfg client w h
                  = Ok {| Details := v; Summary := ""; Err := Some cause |} h2
              | Ok (summary, None) h2 =>
                  worker_with summarize v cfg client w h
                  = Ok {| Details := v; Summary := TrimSpace summary; Err := None |} h2
              | Panicked h2 => worker_with summarize v cfg client w h = Panicked h2
              end
          end
      end.
Proof.
  destruct (getVideoTranscript_total (ID v) cfg w h) as ([t e] & h1 & Hget & Hc).
  exists (t, e), h1. split; [done|]. split; [done|].
  unfold worker_with. run_m. rewrite Hget. simpl.
  destruct e as [cause|]; simpl; [done|].
  destruct (decide (t = "")) as [->|Hne]; simpl; [done|].
  split; [done|].
  destruct client as [g|]; simpl; [|done].
  destruct (summarize g t cfg w h1) as [[s [cause|]] h2|h2]; done.
Qed.

Lemma worker_with_result summarize w v cfg client h r h' :
  worker_with summarize v cfg client w h = Ok r h' →
  Details r = v ∧ (Summary r = "" ∨ Err r = None).
Proof.
  intros Hrun.
  destruct (worker_with_cases summarize w v cfg client h) as (acquired & h1 & _ & _ & Hcase).
  rewrite Hrun in Hcase.
  destruct (outcome acquired) as [t| |cause]; simplify_eq; [|by auto|by auto].
  destruct Hcase as [_ Hcase].
  destruct client as [g|]; [|simplify_eq; by auto].
  destruct (summarize g t cfg w h1) as [[s [cause|]] h2|h2]; simplify_eq; by auto.
Qed.

(** C4. The body of a worker, step by step: a failed acquisition gives a
    result with that error; an empty transcript gives a result with the
    error "no transcript available"; a missing Gemini client gives the
    error "summarization skipped ..."; a failed summarize call gives its
    error; otherwise the result carries the trimmed summary.  In the first
    three cases the result and the history are those the acquisition left,
    whatever the summarize function is and does: it is not called, and the
    acquisition itself never calls the model. *)
Theorem C4_worker_step_order summarize w v cfg client h :
  worker = worker_with summarizeTranscriptWithGemini
  ∧ Error errNoTranscript = "no transcript available"
  ∧ HasPrefix (Error errSkipped) "summarization skipped" = true
  ∧ ∃ acquired h1,
      getVideoTranscript (ID v) cfg w h = Ok acquired h1
      ∧ count is_generate h1 = count is_generate h
      ∧ match outcome acquired with
        | Failure cause =>
            worker_with summarize v cfg client w h
            = Ok {| Details := v; Summary := ""; Err := Some cause |} h1
        | Absent =>
            worker_with summarize v cfg client w h
            = Ok {| Details := v; Summary := ""; Err := Some errNoTranscript |} h1
        | TranscriptText transcript =>
            match client with
            | None =>
                worker_with summarize v cfg client w h
                = Ok {| Details := v; Summary := ""; Err := Some errSkipped |} h1
            | Some g =>
                match summarize g transcript cfg w h1 with
                | Ok (_, Some cause) h2 =>
                    worker_with summarize v cfg client w h
                    = Ok {| Details := v; Summary := ""; Err := Some cause |} h2
                | Ok (summary, None) h2 =>
                    worker_with summarize v cfg client w h
                    = Ok {| Details := v; Summary := TrimSpace summary; Err := None |} h2
                | Panicked h2 => worker_with summarize v cfg client w h = Panicked h2
                end
            end
        end.
Proof.
  repeat (split; [done|]).
  destruct (worker_with_cases summarize w v cfg client h)
    as (acquired & h1 & Hget & Hc & Hcase).
  exists acquired, h1. repeat (split; [done|]).
  destruct (outcome acquired); [|done..]. by destruct Hcase.
Qed.

(** C8. A result produced by a worker never has both a non-empty summary
    and an error. *)
Theorem C8_summary_and_error_exclusive w v cfg client h r h' :
  worker v cfg client w h = Ok r h' →
  ¬ (Summary r ≠ "" ∧ Err r ≠ None).
Proof.
  intros Hrun [Hs He].
  destruct (worker_with_result _ _ _ _ _ _ _ _ Hrun) as [_ [?|?]]; done.
Qed.

(** C10. On the empty transcript [summarizeTranscriptWithGemini] returns
    the fixed placeholder without error and without any external call
    (the history is unchanged).  The worker never reaches that branch:
    its behaviour is the same with any summarize function that agrees
    with this one on non-empty transcripts.  A result carrying the
    placeholder is counted by the report loop as a summary and not as an
    error. *)
Theorem C10_empty_transcript_placeholder
    (summarize : GenerativeModel → string → AppConfig → M (string * option error)) :
  (∀ g transcript cfg w h,
      transcript ≠ "" →
      summarize g transcript cfg w h = summarizeTranscriptWithGemini g transcript cfg w h) →
  (∀ g cfg w h,
      summarizeTranscriptWithGemini g "" cfg w h
      = Ok ("Transcript was empty, no summary generated.", None) h)
  ∧ (∀ v cfg client w h,
      worker_with summarize v cfg client w h = worker v cfg client w h)
  ∧ (∀ video allResults t,
      let r := {| Details := video; Summary := emptyTranscriptSummary; Err := None |} in
      successfulSummaries (visit (<[ID video := r]> allResults) t video)
      = (successfulSummaries t + 1)%Z
      ∧ videosWithErrors (visit (<[ID video := r]> allResults) t video)
        = videosWithErrors t).
Proof.
  intros Hagree. split; [done|]. split.
  - intros v cfg client w h.
    destruct (worker_with_cases summarize w v cfg client h) as (a1 & h1 & Hg1 & _ & H1).
    destruct (worker_with_cases summarizeTranscriptWithGemini w v cfg client h)
      as (a2 & h2 & Hg2 & _ & H2).
    rewrite Hg1 in Hg2. simplify_eq. unfold worker.
    destruct (outcome a2) as [t| |cause]; [|congruence..].
    destruct H1 as [Hne H1], H2 as [_ H2].
    destruct client as [g|]; [|congruence].
    rewrite (Hagree g t cfg w h2 Hne) in H1.
    destruct (summarizeTranscriptWithGemini g t cfg w h2) as [[s [cause|]] h3|h3];
      congruence.
  - intros video allResults t r. unfold visit.
    rewrite lookup_insert_eq. simpl. done.
Qed.

End WorkerFacts.

(** * Properties of the report loop *)

Module ReportFacts.
Import Report.

Lemma entries_foldl m vs : ∀ t,
  entries (foldl (visit m) t vs) = entries t ++ (entry_of m <$> vs).
Proof.
  induction vs as [|v vs IH]; intros t; simpl.
  - by rewrite app_nil_r.
  - rewrite IH. unfold visit, entry_of.
    destruct (m !! ID v); simpl; by rewrite <- app_assoc.
Qed.

Lemma entries_report videos m : entries (report videos m) = entry_of m <$> videos.
Proof. unfold report. by rewrite entries_foldl. Qed.

Lemma counts_foldl m vs : ∀ t,
  successfulSummaries (foldl (visit m) t vs)
  = (successfulSummaries t + number (summarized m) vs)%Z
  ∧ videosWithErrors (foldl (visit m) t vs)
    = (videosWithErrors t + number (errored m) vs)%Z.
Proof.
  unfold number. induction vs as [|v vs IH]; intros t; simpl; [lia|].
  destruct (IH (visit m t v)) as [-> ->].
  unfold visit, summarized, errored.
  destruct (m !! ID v) as [r|]; simpl.
  - destruct (decide (Summary r ≠ "")) as [Hs|Hs]; destruct (Err r) as [e|];
      rewrite ?(bool_decide_eq_true_2 _ Hs), ?(bool_decide_eq_false_2 _ Hs);
      simpl; lia.
  - lia.
Qed.

(** What the two counters of the report loop count: the videos found with
    a non-empty summary; the videos without result or with an error. *)
Lemma report_counts videos m :
  successfulSummaries (report videos m) = number (summarized m) videos
  ∧ videosWithErrors (report videos m) = number (errored m) videos.
Proof. unfold report. destruct (counts_foldl m videos start) as [-> ->]. simpl. lia. Qed.

(** When no result has both a summary and an error, the two counters and
    the videos with neither add up to the number of videos. *)
Lemma report_accounts videos m :
  (∀ k r, m !! k = Some r → Summary r = "" ∨ Err r = None) →
  (number (summarized m) videos + number (errored m) videos
   + number (silent m) videos)%Z = Z.of_nat (length videos).
Proof.
  intros Hexcl. unfold number. induction videos as [|v vs IH]; simpl; [done|].
  unfold summarized at 1, errored at 1, silent at 1.
  destruct (m !! ID v) as [r|] eqn:Hr; simpl; [|lia].
  destruct (Hexcl _ _ Hr) as [Hs|He].
  - rewrite bool_decide_eq_false_2 by (intros ?; done).
    destruct (Err r) as [e|] eqn:He.
    + rewrite bool_decide_eq_true_2 by done.
      rewrite bool_decide_eq_false_2 by (by intros [_ ?]). simpl. lia.
    + rewrite bool_decide_eq_false_2 by (intros ?; done).
      rewrite bool_decide_eq_true_2 by done. simpl. lia.
  - rewrite He. rewrite (bool_decide_eq_false_2 (None ≠ None)) by (intros ?; done).
    destruct (decide (Summary r = "")) as [Hs|Hs].
    + rewrite bool_decide_eq_false_2 by (intros ?; done).
      rewrite bool_decide_eq_true_2 by done. simpl. lia.
    + rewrite bool_decide_eq_true_2 by done.
      rewrite bool_decide_eq_false_2 by (by intros [? _]). simpl. lia.
Qed.

End ReportFacts.

(** * Properties of the goroutines *)

Module PipelineFacts.
Import Strings Acquirer Summarizer Worker Report Pipeline WorkerFacts.

Lemma total_app f ws pc : total f (ws ++ [pc]) = total f ws + f pc.
Proof. unfold total. rewrite sum_list_with_app. simpl. lia. Qed.

Lemma total_insert f (ws : list worker_pc) i pc pc' :
  ws !! i = Some pc →
  total f (<[i:=pc']> ws) + f pc = total f ws + f pc'.
Proof.
  unfold total. revert i. induction ws as [|a ws IH]; intros [|i] Hi; simplify_eq/=.
  - lia.
  - specialize (IH i Hi). lia.
Qed.

Lemma total_lookup f (ws : list worker_pc) i pc :
  ws !! i = Some pc → f pc ≤ total f ws.
Proof.
  unfold total. revert i. induction ws as [|a ws IH]; intros [|i] Hi; simplify_eq/=.
  - lia.
  - specialize (IH i Hi). lia.
Qed.

Lemma total_pending_zero (ws : list worker_pc) i pc :
  total pending ws = 0 → ws !! i = Some pc → pc = WExited.
Proof.
  intros Hz Hi. pose proof (total_lookup pending ws i pc Hi) as Hle.
  destruct pc; simpl in Hle; try lia. done.
Qed.

Section Run.
Variable videos : list VideoDetails.
Variable cfg : AppConfig.
Variable geminiClient : option GenerativeModel.
Variable world : nat → World.

Local Abbreviation init := (init videos cfg).
Local Abbreviation step := (step videos cfg geminiClient world).
Local Abbreviation step_main := (step_main videos cfg).
Local Abbreviation step_worker := (step_worker videos cfg geminiClient world).
Local Abbreviation run := (run videos cfg geminiClient world).
Local Abbreviation reachable := (reachable videos cfg geminiClient world).
Local Abbreviation Inv := (Inv videos cfg geminiClient world).
Local Abbreviation Delivered := (Delivered videos cfg geminiClient world).
Local Abbreviation result_of := (result_of cfg geminiClient world).
Local Abbreviation releases := (releases videos cfg geminiClient world).

Lemma result_of_details i v r : result_of i v r → Details r = v.
Proof. intros [h Hr]. by destruct (worker_with_result _ _ _ _ _ _ _ _ Hr). Qed.

Lemma result_of_exclusive i v r : result_of i v r → Summary r = "" ∨ Err r = None.
Proof. intros [h Hr]. by destruct (worker_with_result _ _ _ _ _ _ _ _ Hr). Qed.

Lemma result_of_det i v r r' : result_of i v r → result_of i v r' → r = r'.
Proof. intros [h Hr] [h' Hr']. congruence. Qed.

Lemma init_inv : videos ≠ [] → Inv init.
Proof.
  intros Hne. unfold Pipeline.init. destruct videos as [|v vs] eqn:Hv; [done|].
  unfold loop_head. rewrite decide_True by (simpl; lia).
  constructor; simpl; try done; try lia.
  - intros r Hr. by apply elem_of_nil in Hr.
  - intros i [Hi|Hi]; by rewrite lookup_nil in Hi.
  - intros Hc. left. by apply bool_decide_eq_true in Hc.
Qed.

Lemma step_main_inv s s' :
  Inv s → main s ≠ MReturned → crashed s = false → step_main s = Some s' → Inv s'.
Proof.
  intros [Hsem Hcap Hwg Hdis Hcs Hcw Hcp [Hcl Hcl'] Hcol Hch Hrun Hsend Hic Him Hpr Hpan Hcra]
  Hret Hnc Hstep.
  unfold Pipeline.step_main in Hstep.
  destruct (main s) as [i|i|i| | | |] eqn:Hmain; simpl in *.
  - (* wg.Add(1) *)
    simplify_eq. constructor; simpl; rewrite ?Hmain; simpl; try done; try lia.
  - (* semaphore <- struct{}{} *)
    case_decide; simplify_eq.
    constructor; simpl; rewrite ?Hmain; simpl; try done; lia.
  - (* go func *)
    destruct (videos !! i) as [video|] eqn:Hvid; simplify_eq/=.
    destruct Hdis as (Hlen & Hlt).
    assert (Hhead : loop_head videos (S i) = MAdd (S i) ∧ S i < length videos
                    ∨ loop_head videos (S i) = MGoCloser ∧ S i = length videos).
    { unfold loop_head. case_decide; [left|right]; split; auto with lia. }
    constructor; simpl; rewrite ?total_app; simpl; try done; try lia.
    all: try (destruct Hhead as [[-> ?]|[-> ?]]; simpl; rewrite ?length_app; simpl;
              try done; auto with lia; fail).
    + rewrite Hcs. by intros [?|?].
    + intros j v Hj. apply lookup_app_Some in Hj as [Hj|[Hge Hj]]; [by eauto|].
      apply list_lookup_singleton_Some in Hj as [Hj ?]. simplify_eq.
      by replace j with (length (workers s)) by lia.
    + intros j r Hj. apply lookup_app_Some in Hj as [Hj|[Hge Hj]]; [by eauto|].
      apply list_lookup_singleton_Some in Hj as [Hj ?]. simplify_eq.
    + intros j [Hj|Hj]; (apply lookup_app_Some in Hj as [Hj|[Hge Hj]]; [by eauto|]);
        apply list_lookup_singleton_Some in Hj as [Hj ?]; simplify_eq.
  - (* go closer *)
    simplify_eq. constructor; simpl; rewrite ?Hmain; simpl; try done; try lia.
    + intros _. apply Hcw. by left.
    + by intros [?|?].
    + split; [|done]. intros Hcd. specialize (Hcl Hcd). congruence.
  - (* range resultsChannel *)
    destruct (resultsChannel s) as [|result rest] eqn:Hq.
    + destruct (closed s) eqn:Hcd; simplify_eq.
      constructor; simpl; rewrite ?Hmain, ?Hq, ?Hcd; simpl; try done; try lia.
    + simplify_eq.
      constructor; simpl; rewrite ?Hmain, ?Hq; simpl; try done; try lia.
      * simpl in Hch. lia.
      * intros r Hr. apply Hic. by right.
      * intros k r Hk. destruct (decide (k = ID (Details result))) as [->|Hne].
        -- rewrite lookup_insert_eq in Hk. simplify_eq.
           destruct (Hic r) as (i & v & Hv & Hres); [by left|].
           exists i, v. by rewrite (result_of_details _ _ _ Hres).
        -- rewrite lookup_insert_ne in Hk by done. by eauto.
  - (* the report *)
    simplify_eq. constructor; simpl; rewrite ?Hmain; simpl; try done; try lia.
  - done.
Qed.

Lemma step_closer_inv s s' :
  Inv s → main s ≠ MReturned → crashed s = false → step_closer s = Some s' → Inv s'.
Proof.
  intros [Hsem Hcap Hwg Hdis Hcs Hcw Hcp [Hcl Hcl'] Hcol Hch Hrun Hsend Hic Him Hpr Hpan Hcra]
  Hret Hnc Hstep.
  unfold step_closer in Hstep.
  destruct (closer s) as [[| |]|] eqn:Hclo; simpl in *; [| | done..].
  - (* wg.Wait() *)
    case_decide as Hz; simplify_eq.
    assert (before_closer (main s) = false) as Hbc.
    { destruct (before_closer (main s)); [done|done]. }
    assert (unit_in_hand (main s) = 0) as Hu.
    { destruct (main s); simpl in *; done. }
    constructor; simpl; rewrite ?Hbc; simpl; try done; try lia.
    + by intros [?|?].
    + split; [|done]. intros Hcd. assert (closed s = false) by auto. congruence.
  - (* close(resultsChannel) *)
    destruct (closed s) eqn:Hcd; simplify_eq.
    + by specialize (Hcl eq_refl).
    + assert (before_closer (main s) = false) as Hbc.
      { destruct (before_closer (main s)); [done|done]. }
      constructor; simpl; rewrite ?Hbc, ?Hcd; simpl; try done; try lia; auto.
      * by intros [?|?].
      * intros Hc. by destruct (Hcol Hc).
Qed.

Lemma step_worker_inv i s s' :
  Inv s → main s ≠ MReturned → crashed s = false → step_worker i s = Some s' → Inv s'.
Proof.
  intros [Hsem Hcap Hwg Hdis Hcs Hcw Hcp [Hcl Hcl'] Hcol Hch Hrun Hsend Hic Him Hpr Hpan Hcra]
  Hret Hnc Hstep.
  unfold Pipeline.step_worker in Hstep.
  destruct (workers s !! i) as [pc|] eqn:Hpc; simpl in *; [|done].
  pose proof (λ pc', total_insert holds_slot (workers s) i pc pc' Hpc) as Hth.
  pose proof (λ pc', total_insert pending (workers s) i pc pc' Hpc) as Htp.
  pose proof (λ pc', total_insert past_send (workers s) i pc pc' Hpc) as Hts.
  assert (Hother : ∀ j pc' pc'', j ≠ i →
            <[i:=pc']> (workers s) !! j = Some pc'' → workers s !! j = Some pc'').
  { intros j pc' pc'' Hne. by rewrite list_lookup_insert_ne. }
  assert (Hsame : ∀ pc' pc'', <[i:=pc']> (workers s) !! i = Some pc'' → pc'' = pc').
  { intros pc' pc'' Hl. rewrite list_lookup_insert_eq in Hl; [congruence|].
    by eapply lookup_lt_Some. }
  assert (Hlook : ∀ j pc' pc'',
            <[i:=pc']> (workers s) !! j = Some pc'' →
            j = i ∧ pc'' = pc' ∨ j ≠ i ∧ workers s !! j = Some pc'').
  { intros j pc' pc'' Hl. destruct (decide (j = i)) as [->|Hne]; [left|right]; eauto. }
  clear Hother Hsame.
  pose proof (total_lookup pending (workers s) i pc Hpc) as Hpend.
  destruct pc as [v|r|e|e|].
  - (* the body *)
    destruct (worker v cfg geminiClient (world i) []) as [r h|h] eqn:Hw; simplify_eq.
    + specialize (Hth (WSend r)). specialize (Htp (WSend r)).
      specialize (Hts (WSend r)). simpl in *.
      constructor; simpl; rewrite ?length_insert; try done; try lia.
      * intros Hx. specialize (Hcp Hx). lia.
      * intros j x Hj. apply Hlook in Hj as [[-> ?]|[? Hj]]; simplify_eq; eauto.
      * intros j x Hj. apply Hlook in Hj as [[-> ?]|[? Hj]]; simplify_eq; eauto.
        exists v. split; [by eauto|]. by exists h.
      * intros j [Hj|Hj]; apply Hlook in Hj as [[-> ?]|[? Hj]]; simplify_eq; eauto.
    + specialize (Hth (WRelease Panicking)). specialize (Htp (WRelease Panicking)).
      specialize (Hts (WRelease Panicking)). simpl in *.
      constructor; simpl; rewrite ?length_insert; try done; try lia.
      * intros Hx. specialize (Hcp Hx). lia.
      * intros j x Hj. apply Hlook in Hj as [[-> ?]|[? Hj]]; simplify_eq; eauto.
      * intros j x Hj. apply Hlook in Hj as [[-> ?]|[? Hj]]; simplify_eq; eauto.
      * intros j [Hj|Hj]; apply Hlook in Hj as [[-> ?]|[? Hj]]; simplify_eq; eauto.
        exists v, h. split; [by eauto|done].
  - (* the send *)
    destruct (closed s) eqn:Hcd; simplify_eq.
    { specialize (Hcp (or_intror (Hcl eq_refl))). simpl in Hpend. lia. }
    case_decide; simplify_eq.
    specialize (Hth (WRelease Sent)). specialize (Htp (WRelease Sent)).
    specialize (Hts (WRelease Sent)). simpl in *.
    constructor; simpl; rewrite ?length_insert, ?length_app, ?Hcd; simpl;
      try done; try lia.
    + intros Hx. specialize (Hcp Hx). lia.
    + intros Hc. by destruct (Hcol Hc).
    + intros j x Hj. apply Hlook in Hj as [[-> ?]|[? Hj]]; simplify_eq; eauto.
    + intros j x Hj. apply Hlook in Hj as [[-> ?]|[? Hj]]; simplify_eq; eauto.
    + intros x Hx. apply elem_of_app in Hx as [Hx|Hx]; [by eauto|].
      apply list_elem_of_singleton in Hx as ->.
      destruct (Hsend i r Hpc) as (v & ? & ?). by eauto.
    + intros j [Hj|Hj]; apply Hlook in Hj as [[-> ?]|[? Hj]]; simplify_eq; eauto.
  - (* the deferred receive *)
    destruct (semaphore s) as [|n] eqn:Hn; simplify_eq.
    specialize (Hth (WDone e)). specialize (Htp (WDone e)).
    specialize (Hts (WDone e)). simpl in *.
    constructor; simpl; rewrite ?length_insert; simpl; try done; try lia.
    + intros Hx. specialize (Hcp Hx). lia.
    + intros j x Hj. apply Hlook in Hj as [[-> ?]|[? Hj]]; simplify_eq; eauto.
    + intros j x Hj. apply Hlook in Hj as [[-> ?]|[? Hj]]; simplify_eq; eauto.
    + intros j [Hj|Hj]; apply Hlook in Hj as [[-> ?]|[? Hj]]; simplify_eq; eauto.
  - (* the deferred wg.Done() *)
    case_decide; simplify_eq.
    { simpl in Hpend. lia. }
    specialize (Hth WExited). specialize (Htp WExited).
    specialize (Hts WExited). simpl in *.
    destruct e; simplify_eq.
    + constructor; simpl; rewrite ?length_insert; simpl; try done; try lia.
      * intros Hx. specialize (Hcp Hx). lia.
      * intros j x Hj. apply Hlook in Hj as [[-> ?]|[? Hj]]; simplify_eq; eauto.
      * intros j x Hj. apply Hlook in Hj as [[-> ?]|[? Hj]]; simplify_eq; eauto.
      * intros j [Hj|Hj]; apply Hlook in Hj as [[-> ?]|[? Hj]]; simplify_eq; eauto.
    + constructor; simpl; rewrite ?length_insert; simpl; try done; try lia.
      * intros Hx. specialize (Hcp Hx). lia.
      * intros j x Hj. apply Hlook in Hj as [[-> ?]|[? Hj]]; simplify_eq; eauto.
      * intros j x Hj. apply Hlook in Hj as [[-> ?]|[? Hj]]; simplify_eq; eauto.
      * intros j [Hj|Hj]; apply Hlook in Hj as [[-> ?]|[? Hj]]; simplify_eq; eauto.
      * intros _. right. exists i. apply Hpan. by right.
  - done.
Qed.

Lemma step_inv g s s' : Inv s → step g s = Some s' → Inv s'.
Proof.
  intros HI Hstep. unfold Pipeline.step in Hstep.
  destruct (crashed s) eqn:Hnc; [done|].
  destruct (decide (main s = MReturned)) as [Hr|Hr].
  { rewrite Hr in Hstep. done. }
  assert (Hstep' : match g with
                   | GMain => Pipeline.step_main videos cfg s
                   | GWorker i => step_worker i s
                   | GCloser => step_closer s
                   end = Some s').
  { destruct (main s); try done. }
  destruct g.
  - by eapply step_main_inv.
  - by eapply step_worker_inv.
  - by eapply step_closer_inv.
Qed.

Lemma run_inv schedule : ∀ s s', Inv s → run schedule s = Some s' → Inv s'.
Proof.
  induction schedule as [|g schedule IH]; intros s s' HI Hrun; simpl in Hrun.
  - by simplify_eq.
  - destruct (step g s) as [s1|] eqn:Hs; simpl in Hrun; [|done].
    eapply IH; [|done]. by eapply step_inv.
Qed.

(** With no videos nothing runs. *)
Lemma run_no_videos schedule s :
  videos = [] → run schedule init = Some s → s = init.
Proof.
  intros Hv Hrun. destruct schedule as [|g schedule]; simpl in Hrun; [by simplify_eq|].
  unfold Pipeline.step, Pipeline.init in Hrun. rewrite Hv in Hrun. simpl in Hrun. done.
Qed.

Lemma reachable_inv s : videos ≠ [] → reachable s → Inv s.
Proof. intros Hne [schedule Hrun]. eapply run_inv; [|done]. by apply init_inv. Qed.




(** *** Unique identifiers: nothing sent is lost *)

Section Unique.
Hypothesis unique_ids : NoDup (ID <$> videos).

Lemma same_id_same_index i j v v' :
  videos !! i = Some v → videos !! j = Some v' → ID v = ID v' → i = j.
Proof.
  intros Hi Hj Hid. eapply (NoDup_lookup _ _ _ (ID v) unique_ids).
  - by rewrite list_lookup_fmap, Hi.
  - by rewrite list_lookup_fmap, Hj, Hid.
Qed.

Lemma step_delivered g s s' :
  Inv s → Delivered s → step g s = Some s' → Delivered s'.
Proof.
  intros HI HD Hstep. unfold Pipeline.step in Hstep.
  destruct (crashed s) eqn:Hcr; [done|]. specialize (HD Hcr).
  destruct (decide (main s = MReturned)) as [Hr|Hr].
  { rewrite Hr in Hstep. done. }
  assert (Hstep' : match g with
                   | GMain => Pipeline.step_main videos cfg s
                   | GWorker i => step_worker i s
                   | GCloser => step_closer s
                   end = Some s').
  { destruct (main s); try done. }
  clear Hstep. intros Hcr' j pcj Hj Hsent.
  destruct g as [|i|].
  - (* main *)
    unfold Pipeline.step_main in Hstep'.
    destruct (main s) as [i|i|i| | | |] eqn:Hmain; simplify_eq/=; try by eauto.
    + case_decide; simplify_eq/=. by eauto.
    + destruct (videos !! i) as [video|] eqn:Hvid; simplify_eq/=.
      apply lookup_app_Some in Hj as [Hj|[Hge Hj]]; [by eauto|].
      apply list_lookup_singleton_Some in Hj as [_ <-]. done.
    + destruct (resultsChannel s) as [|result rest] eqn:Hq.
      * destruct (closed s); simplify_eq/=. rewrite Hq. by eauto.
      * simplify_eq/=.
        destruct (HD j pcj Hj Hsent) as (v & r & Hv & Hres & Hwhere).
        exists v, r. split; [done|]. split; [done|].
        destruct (inv_in_channel _ _ _ _ _ HI result) as (i' & v' & Hv' & Hres');
          [rewrite Hq; by left|].
        pose proof (result_of_details _ _ _ Hres') as Hd'.
        destruct (decide (ID v' = ID v)) as [Heq|Hne].
        -- right. assert (i' = j) as -> by (by eapply same_id_same_index).
           simplify_eq. rewrite (result_of_det _ _ _ _ Hres' Hres).
           apply lookup_insert_eq.
        -- destruct Hwhere as [Hin|Hmap].
           ++ apply elem_of_cons in Hin as [->|Hin]; [|by left].
              rewrite (result_of_details _ _ _ Hres) in Hd'. by subst.
           ++ right. rewrite lookup_insert_ne; [done|]. by rewrite Hd'.
  - (* worker i *)
    unfold Pipeline.step_worker in Hstep'.
    destruct (workers s !! i) as [pc|] eqn:Hpc; simpl in *; [|done].
    assert (Hlook : ∀ pc', <[i:=pc']> (workers s) !! j = Some pcj →
              j = i ∧ pcj = pc' ∨ j ≠ i ∧ workers s !! j = Some pcj).
    { intros pc' Hl. destruct (decide (j = i)) as [->|Hne]; [left|right].
      - rewrite list_lookup_insert_eq in Hl by (by eapply lookup_lt_Some).
        by simplify_eq.
      - by rewrite list_lookup_insert_ne in Hl. }
    destruct pc as [v|r|e|e|].
    + destruct (worker v cfg geminiClient (world i) []) as [r h|h]; simplify_eq/=.
      * apply Hlook in Hj as [[-> ->]|[? Hj]]; [done|by eauto].
      * apply Hlook in Hj as [[-> ->]|[? Hj]]; [done|by eauto].
    + destruct (closed s); simplify_eq/=. case_decide; simplify_eq/=.
      apply Hlook in Hj as [[-> ->]|[? Hj]].
      * destruct (inv_send _ _ _ _ _ HI i r Hpc) as (v & Hv & Hres).
        exists v, r. split; [done|]. split; [done|]. left.
        apply elem_of_app. right. by apply list_elem_of_singleton.
      * destruct (HD j pcj Hj Hsent) as (v & r' & Hv & Hres & [Hin|Hmap]).
        -- exists v, r'. split; [done|]. split; [done|]. left.
           apply elem_of_app. by left.
        -- exists v, r'. by eauto.
    + destruct (semaphore s); simplify_eq/=.
      apply Hlook in Hj as [[-> ->]|[? Hj]]; [|by eauto].
      eapply (HD i (WRelease e)); [done|by destruct e].
    + case_decide; simplify_eq/=.
      destruct e; simplify_eq/=.
      apply Hlook in Hj as [[-> ->]|[? Hj]]; [|by eauto].
      by eapply (HD i (WDone Sent)).
    + done.
  - (* the closer *)
    unfold step_closer in Hstep'.
    destruct (closer s) as [[| |]|]; simplify_eq/=.
    + case_decide; simplify_eq/=. by eauto.
    + destruct (closed s); simplify_eq/=. by eauto.
Qed.

Lemma init_delivered : Delivered init.
Proof.
  intros _ i pc Hi. unfold Pipeline.init in Hi.
  destruct videos; simpl in Hi; by rewrite lookup_nil in Hi.
Qed.

Lemma run_delivered schedule :
  ∀ s s', Inv s → Delivered s → run schedule s = Some s' → Delivered s'.
Proof.
  induction schedule as [|g schedule IH]; intros s s' HI HD Hrun; simpl in Hrun.
  - by simplify_eq.
  - destruct (step g s) as [s1|] eqn:Hs; simpl in Hrun; [|done].
    eapply IH; [| |done]; [by eapply step_inv|by eapply step_delivered].
Qed.

End Unique.

(** *** The deferred receive runs once *)

Lemma step_releases i g s s' :
  step g s = Some s' →
  releasing i g s + released i s = released i s'.
Proof.
  intros Hstep. unfold Pipeline.step in Hstep.
  destruct (crashed s); [done|].
  assert (Hstep' : match g with
                   | GMain => Pipeline.step_main videos cfg s
                   | GWorker j => step_worker j s
                   | GCloser => step_closer s
                   end = Some s').
  { destruct (main s); try done. }
  clear Hstep. unfold releasing, released.
  destruct g as [|j|].
  - replace (match workers s !! i with Some (WRelease _) | _ => 0 end) with 0
      by (by destruct (workers s !! i) as [[]|]).
    unfold Pipeline.step_main in Hstep'.
    destruct (main s) as [k|k|k| | | |]; simplify_eq/=; try done.
    + by case_decide; simplify_eq/=.
    + destruct (videos !! k) as [video|]; simplify_eq/=.
      destruct (workers s !! i) as [pc|] eqn:Hi.
      * by rewrite (lookup_app_l_Some _ _ _ _ Hi).
      * destruct ((workers s ++ [WRun video]) !! i) as [pc|] eqn:Hi'; [|done].
        apply lookup_app_Some in Hi' as [Hi'|[_ Hi']]; [congruence|].
        by apply list_lookup_singleton_Some in Hi' as [_ <-].
    + destruct (resultsChannel s); [destruct (closed s)|]; by simplify_eq/=.
  - unfold Pipeline.step_worker in Hstep'.
    destruct (workers s !! j) as [pc|] eqn:Hpc; simpl in *; [|done].
    assert (Hlt : j < length (workers s)) by (by eapply lookup_lt_Some).
    destruct (decide (i = j)) as [->|Hne].
    + rewrite Hpc.
      destruct pc as [v|r|e|e|]; simplify_eq/=.
      * destruct (worker v cfg geminiClient (world j) []); simplify_eq/=;
          by rewrite list_lookup_insert_eq.
      * destruct (closed s); simplify_eq/=; [by rewrite Hpc|].
        case_decide; simplify_eq/=. by rewrite list_lookup_insert_eq.
      * destruct (semaphore s); simplify_eq/=. by rewrite list_lookup_insert_eq.
      * case_decide; simplify_eq/=; [by rewrite Hpc|].
        destruct e; simplify_eq/=; by rewrite list_lookup_insert_eq.
    + replace (match workers s !! i with Some (WRelease _) | _ => 0 end) with 0
        by (by destruct (workers s !! i) as [[]|]).
      assert (workers s' !! i = workers s !! i) as ->; [|done].
      destruct pc as [v|r|e|e|]; simplify_eq/=.
      * destruct (worker v cfg geminiClient (world j) []); simplify_eq/=;
          by rewrite list_lookup_insert_ne.
      * destruct (closed s); simplify_eq/=; [done|].
        case_decide; simplify_eq/=. by rewrite list_lookup_insert_ne.
      * destruct (semaphore s); simplify_eq/=. by rewrite list_lookup_insert_ne.
      * case_decide; simplify_eq/=; [done|].
        destruct e; simplify_eq/=; by rewrite list_lookup_insert_ne.
  - replace (match workers s !! i with Some (WRelease _) | _ => 0 end) with 0
      by (by destruct (workers s !! i) as [[]|]).
    unfold step_closer in Hstep'.
    destruct (closer s) as [[| |]|]; simplify_eq/=.
    + by case_decide; simplify_eq/=.
    + by destruct (closed s); simplify_eq/=.
Qed.

Lemma run_releases i schedule :
  ∀ s s', run schedule s = Some s' →
          releases i schedule s + released i s = released i s'.
Proof.
  induction schedule as [|g schedule IH]; intros s s' Hrun; simpl in *.
  - by simplify_eq.
  - destruct (step g s) as [s1|] eqn:Hs; simpl in Hrun; [|done].
    specialize (IH _ _ Hrun). pose proof (step_releases i _ _ _ Hs). lia.
Qed.

(** *** Once the collection loop is over *)

Lemma total_pending_replicate (ws : list worker_pc) :
  total pending ws = 0 → ws = replicate (length ws) WExited.
Proof.
  intros Hz. symmetry. apply replicate_as_Forall. split; [done|].
  apply Forall_lookup. intros i pc Hi. symmetry. by eapply total_pending_zero.
Qed.

Lemma closed_all_exited s :
  Inv s → closed s = true → workers s = replicate (length videos) WExited.
Proof.
  intros HI Hcd.
  pose proof (proj1 (inv_closed _ _ _ _ _ HI) Hcd) as Hclo.
  pose proof (inv_closer_started _ _ _ _ _ HI) as Hcs.
  pose proof (inv_dispatch _ _ _ _ _ HI) as Hdis.
  assert (dispatching (main s) = None) as Hnone.
  { destruct (main s); simpl in *; try done; congruence. }
  rewrite Hnone in Hdis. rewrite <- Hdis.
  apply total_pending_replicate. apply (inv_closer_past _ _ _ _ _ HI). by right.
Qed.

Lemma executing_holds (ws : list worker_pc) :
  total executing ws ≤ total holds_slot ws.
Proof.
  unfold total. induction ws as [|pc ws IH]; simpl; [done|].
  destruct pc; simpl; lia.
Qed.

Lemma run_no_videos_nil schedule s :
  videos = [] → run schedule init = Some s → schedule = [].
Proof.
  intros Hv Hrun. destruct schedule as [|g schedule]; [done|]. simpl in Hrun.
  unfold Pipeline.step, Pipeline.init in Hrun. rewrite Hv in Hrun. simpl in Hrun. done.
Qed.

(** C2. In every state the program can reach, the workers in their
    fetch-and-summarize step are no more than [ConcurrencyLimit]: the
    values buffered in [semaphore] are exactly the slots of the workers
    between their start and their deferred receive (and the slot the
    main goroutine has taken for the worker it is about to start), and
    never exceed the capacity.  Along the run, every worker has run its
    deferred receive once if it is past it and not at all before,
    whether its body returned or panicked. *)
Theorem C2_concurrency_bounded schedule s :
  run schedule init = Some s →
  total executing (workers s) ≤ Z.to_nat (ConcurrencyLimit cfg)
  ∧ total executing (workers s) ≤ total holds_slot (workers s)
  ∧ semaphore s = total holds_slot (workers s) + slot_in_hand (main s)
  ∧ semaphore s ≤ Z.to_nat (ConcurrencyLimit cfg)
  ∧ ∀ i, releases i schedule init = released i s.
Proof.
  intros Hrun.
  assert (Hrel : ∀ i, releases i schedule init = released i s).
  { intros i. pose proof (run_releases i _ _ _ Hrun) as H.
    replace (released i init) with 0 in H; [lia|].
    unfold released, Pipeline.init. by destruct videos. }
  cut (total executing (workers s) ≤ Z.to_nat (ConcurrencyLimit cfg)
       ∧ total executing (workers s) ≤ total holds_slot (workers s)
       ∧ semaphore s = total holds_slot (workers s) + slot_in_hand (main s)
       ∧ semaphore s ≤ Z.to_nat (ConcurrencyLimit cfg)).
  { intros (? & ? & ? & ?). done. }
  clear Hrel.
  destruct (decide (videos = [])) as [Hv|Hv].
  - pose proof (run_no_videos _ _ Hv Hrun) as ->.
    unfold Pipeline.init. rewrite Hv. simpl.
    repeat split; try done; lia.
  - assert (Inv s) as HI by (apply reachable_inv; [done|by exists schedule]).
    pose proof (inv_semaphore _ _ _ _ _ HI).
    pose proof (inv_capacity _ _ _ _ _ HI).
    pose proof (executing_holds (workers s)).
    repeat split; try done; lia.
Qed.

Lemma terminated_collected s : terminated s → collected (main s) = true.
Proof. intros [-> _]. done. Qed.

Lemma collected_results s :
  NoDup (ID <$> videos) → videos ≠ [] → reachable s →
  collected (main s) = true → crashed s = false →
  ∀ i v, videos !! i = Some v →
         ∃ r, result_of i v r ∧ allResults s !! ID v = Some r.
Proof.
  intros Hnd Hv [schedule Hrun] Hcol Hcr i v Hi.
  assert (Inv s) as HI by (apply reachable_inv; [done|by exists schedule]).
  assert (Delivered s) as HD.
  { eapply run_delivered; [done|by apply init_inv|by apply init_delivered|done]. }
  destruct (inv_collected _ _ _ _ _ HI Hcol) as [Hcd Hq].
  pose proof (closed_all_exited _ HI Hcd) as Hws.
  destruct (HD Hcr i WExited) as (v' & r & Hv' & Hres & Hwhere); [|done|].
  { rewrite Hws. apply lookup_replicate. split; [done|]. by eapply lookup_lt_Some. }
  simplify_eq. exists r. split; [done|].
  destruct Hwhere as [Hin|Hmap]; [|done]. rewrite Hq in Hin. by apply elem_of_nil in Hin.
Qed.

(** C3. With unique identifiers: the results channel is closed only
    when every worker has been started and has finished; and once the
    run has terminated normally, every worker has finished, the channel
    is empty, and the map holds exactly one result per video, the one
    the worker of that video computed, under the identifier of the
    video. *)
Theorem C3_one_result_per_item s :
  NoDup (ID <$> videos) → reachable s →
  (closed s = true → workers s = replicate (length videos) WExited)
  ∧ (terminated s →
       workers s = replicate (length videos) WExited
       ∧ resultsChannel s = []
       ∧ size (allResults s) = length videos
       ∧ ∀ i v, videos !! i = Some v →
                ∃ r, result_of i v r ∧ allResults s !! ID v = Some r).
Proof.
  intros Hnd Hreach.
  destruct (decide (videos = [])) as [Hv|Hv].
  { destruct Hreach as [schedule Hrun].
    pose proof (run_no_videos _ _ Hv Hrun) as ->.
    unfold Pipeline.init. rewrite Hv. simpl. split; [done|]. intros _.
    repeat split; done. }
  assert (Inv s) as HI by (by apply reachable_inv).
  split; [by apply closed_all_exited|].
  intros Hterm. pose proof (terminated_collected _ Hterm) as Hcol.
  destruct (inv_collected _ _ _ _ _ HI Hcol) as [Hcd Hq].
  pose proof (collected_results s Hnd Hv Hreach Hcol (proj2 Hterm)) as Hall.
  split; [by apply closed_all_exited|]. split; [done|]. split; [|done].
  assert (dom (allResults s) = list_to_set (ID <$> videos)) as Hdom.
  { apply set_eq. intros k. rewrite elem_of_dom, elem_of_list_to_set, list_elem_of_fmap.
    split.
    - intros [r Hk].
      destruct (inv_in_map _ _ _ _ _ HI k r Hk) as (i & v & Hi & _ & ->).
      exists v. split; [done|]. by eapply list_elem_of_lookup_2.
    - intros (v & -> & Hin). apply list_elem_of_lookup in Hin as [i Hi].
      destruct (Hall i v Hi) as (r & _ & Hr). by exists r. }
  rewrite <- size_dom, Hdom, size_list_to_set by done. by rewrite length_fmap.
Qed.

(** C1. Whatever the schedule, once the run has terminated normally the
    entries of the report carry the identifiers of [videos], in the
    order of [videos], one entry per element.  With unique identifiers
    the entries are the videos themselves, entry [i] being the result
    the worker of [videos[i]] computed. *)
Theorem C1_report_in_input_order schedule s :
  run schedule init = Some s → terminated s →
  ID ∘ entry_item <$> printed_entries s = ID <$> videos
  ∧ (NoDup (ID <$> videos) →
       entry_item <$> printed_entries s = videos
       ∧ ∀ i v, videos !! i = Some v →
                ∃ r, result_of i v r ∧ printed_entries s !! i = Some (Found r)).
Proof.
  intros Hrun Hterm.
  destruct (decide (videos = [])) as [Hv|Hv].
  { pose proof (run_no_videos _ _ Hv Hrun) as ->.
    unfold printed_entries, Pipeline.init. rewrite Hv. simpl. split; [done|].
    intros _. split; [done|]. intros i v Hi. by rewrite lookup_nil in Hi. }
  assert (reachable s) as Hreach by (by exists schedule).
  assert (Inv s) as HI by (by apply reachable_inv).
  pose proof (inv_printed _ _ _ _ _ HI) as Hpr.
  rewrite decide_True in Hpr by apply Hterm.
  unfold printed_entries. rewrite Hpr, ReportFacts.entries_report.
  split.
  - rewrite <- list_fmap_compose. apply list_fmap_ext. intros i v Hi. simpl.
    unfold entry_of. destruct (allResults s !! ID v) as [r|] eqn:Hk; [|done]. simpl.
    destruct (inv_in_map _ _ _ _ _ HI _ r Hk) as (j & v' & _ & Hres & ->).
    by rewrite (result_of_details _ _ _ Hres).
  - intros Hnd.
    pose proof (collected_results s Hnd Hv Hreach (terminated_collected _ Hterm)
                  (proj2 Hterm)) as Hall.
    split.
    + rewrite <- (list_fmap_id videos) at 2. rewrite <- list_fmap_compose.
      apply list_fmap_ext. intros i v Hi. simpl.
      destruct (Hall i v Hi) as (r & Hres & Hk). unfold entry_of. rewrite Hk. simpl.
      by apply (result_of_details _ _ _ Hres).
    + intros i v Hi. destruct (Hall i v Hi) as (r & Hres & Hk).
      exists r. split; [done|]. rewrite list_lookup_fmap, Hi. simpl.
      unfold entry_of. by rewrite Hk.
Qed.

(** *** Every run ends, and none gets stuck *)

Local Abbreviation measure := (measure videos).

Lemma step_measure g s s' : step g s = Some s' → measure s' < measure s.
Proof.
  intros Hstep. unfold Pipeline.step in Hstep.
  destruct (crashed s) eqn:Hnc; [done|].
  assert (Hstep' : match g with
                   | GMain => Pipeline.step_main videos cfg s
                   | GWorker i => step_worker i s
                   | GCloser => step_closer s
                   end = Some s').
  { destruct (main s); try done. }
  clear Hstep. unfold Pipeline.measure. rewrite Hnc.
  destruct g as [|i|].
  - unfold Pipeline.step_main in Hstep'.
    destruct (main s) as [k|k|k| | | |] eqn:Hmain; simplify_eq/=; rewrite ?Hnc; try lia.
    + case_decide; simplify_eq/=. rewrite Hnc. lia.
    + destruct (videos !! k) as [video|] eqn:Hvid; simplify_eq/=. rewrite Hnc.
      apply lookup_lt_Some in Hvid. rewrite total_app. simpl.
      unfold loop_head. case_decide; simpl; lia.
    + destruct (resultsChannel s) as [|result rest] eqn:Hq.
      * destruct (closed s); simplify_eq/=. rewrite Hnc, Hq. simpl. lia.
      * simplify_eq/=. rewrite Hnc, Hmain. simpl. lia.
  - unfold Pipeline.step_worker in Hstep'.
    destruct (workers s !! i) as [pc|] eqn:Hpc; simpl in *; [|done].
    pose proof (λ pc', total_insert worker_weight (workers s) i pc pc' Hpc) as Hw.
    pose proof (total_lookup worker_weight (workers s) i pc Hpc) as Hle.
    destruct pc as [v|r|e|e|]; simpl in *.
    + destruct (worker v cfg geminiClient (world i) []) as [r ?|?]; simplify_eq/=;
        rewrite Hnc.
      * specialize (Hw (WSend r)). simpl in Hw. lia.
      * specialize (Hw (WRelease Panicking)). simpl in Hw. lia.
    + destruct (closed s); simplify_eq/=; [lia|].
      case_decide; simplify_eq/=. rewrite Hnc, length_app. simpl.
      specialize (Hw (WRelease Sent)). simpl in Hw. lia.
    + destruct (semaphore s); simplify_eq/=. rewrite Hnc.
      specialize (Hw (WDone e)). simpl in Hw. lia.
    + case_decide; simplify_eq/=; [lia|].
      specialize (Hw WExited). simpl in Hw.
      destruct e; simplify_eq/=; rewrite ?Hnc; lia.
    + done.
  - unfold step_closer in Hstep'.
    destruct (closer s) as [[| |]|]; simplify_eq/=.
    + case_decide; simplify_eq/=. rewrite Hnc. lia.
    + destruct (closed s); simplify_eq/=; rewrite ?Hnc; lia.
Qed.

(** A run is never longer than [8 * len(videos) + 5] steps. *)
Lemma run_measure schedule :
  ∀ s s', run schedule s = Some s' → length schedule + measure s' ≤ measure s.
Proof.
  induction schedule as [|g schedule IH]; intros s s' Hrun; simpl in *.
  - by simplify_eq.
  - destruct (step g s) as [s1|] eqn:Hs; simpl in Hrun; [|done].
    specialize (IH _ _ Hrun). pose proof (step_measure _ _ _ Hs). lia.
Qed.

Lemma total_positive f (ws : list worker_pc) :
  0 < total f ws → ∃ j pc, ws !! j = Some pc ∧ 0 < f pc.
Proof.
  unfold total. induction ws as [|pc ws IH]; simpl; [lia|]. intros Hpos.
  destruct (decide (0 < f pc)) as [Hf|Hf].
  - by exists 0, pc.
  - destruct IH as (j & pc' & Hj & Hpc'); [lia|]. by exists (S j), pc'.
Qed.

Lemma total_past_send_lt (ws : list worker_pc) j pc :
  ws !! j = Some pc → past_send pc = 0 → total past_send ws < length ws.
Proof.
  unfold total. revert j. induction ws as [|a ws IH]; intros [|j] Hj Hz; simplify_eq/=.
  - rewrite Hz. assert (sum_list_with past_send ws ≤ length ws); [|lia].
    clear. induction ws as [|b ws IH]; simpl; [done|]. destruct b; simpl; lia.
  - specialize (IH j Hj Hz). destruct a; simpl; lia.
Qed.

(** With at least one slot, a run that has neither returned nor crashed
    always has a goroutine that can take a step. *)
Lemma no_deadlock s :
  videos ≠ [] → (0 < ConcurrencyLimit cfg)%Z → reachable s →
  crashed s = false → main s ≠ MReturned →
  ∃ g s', step g s = Some s'.
Proof.
  intros Hv Hlimit Hreach Hnc Hret.
  pose proof (reachable_inv _ Hv Hreach)
    as [Hsem Hcap Hwg Hdis Hcs Hcw Hcp [Hcl Hcl'] Hcol Hch Hrun Hsend Hic Him Hpr Hpan Hcra].
  assert (Hmain : ∀ s', Pipeline.step_main videos cfg s = Some s' → ∃ g s', step g s = Some s').
  { intros s' Hs. exists GMain, s'. unfold Pipeline.step. rewrite Hnc. by destruct (main s). }
  assert (Hworker : ∀ j pc, workers s !! j = Some pc → pc ≠ WExited →
            (∀ r, pc = WSend r → closed s = false → length (resultsChannel s) < length videos) →
            (∀ e, pc = WRelease e → 0 < semaphore s) →
            ∃ g s', step g s = Some s').
  { intros j pc Hj Hne Hroom Hslot.
    assert (is_Some (step_worker j s)) as [s' Hs].
    { unfold Pipeline.step_worker. rewrite Hj. simpl.
      destruct pc as [v|r|e|e|]; [| | | |done].
      - by destruct (worker v cfg geminiClient (world j) []).
      - destruct (closed s) eqn:Hcd; [done|].
        rewrite decide_True by (by eapply Hroom). done.
      - specialize (Hslot e eq_refl). destruct (semaphore s); [lia|done].
      - destruct (decide (wg s - 1 < 0)%Z); by eexists. }
    exists (GWorker j), s'. unfold Pipeline.step. rewrite Hnc. by destruct (main s). }
  destruct (main s) as [i|i|i| | | |] eqn:Hm; simpl in *; [| | | | | |done].
  - eapply Hmain. unfold Pipeline.step_main. by rewrite Hm.
  - destruct (decide (Z.of_nat (semaphore s) < ConcurrencyLimit cfg)%Z) as [Hlt|Hge].
    { eapply Hmain. unfold Pipeline.step_main. rewrite Hm. by rewrite decide_True. }
    destruct (total_positive holds_slot (workers s)) as (j & pc & Hj & Hpos); [lia|].
    pose proof (total_lookup holds_slot _ _ _ Hj).
    eapply (Hworker j pc Hj).
    + intros ->. simpl in Hpos. lia.
    + intros r -> _. pose proof (total_past_send_lt _ _ _ Hj eq_refl). lia.
    + intros e ->. lia.
  - destruct Hdis as [_ Hlt]. apply lookup_lt_is_Some in Hlt as [video Hvid].
    eapply Hmain. unfold Pipeline.step_main. rewrite Hm, Hvid. simpl. reflexivity.
  - eapply Hmain. unfold Pipeline.step_main. by rewrite Hm.
  - destruct (resultsChannel s) as [|result rest] eqn:Hq.
    2:{ eapply Hmain. unfold Pipeline.step_main. by rewrite Hm, Hq. }
    destruct (closed s) eqn:Hcd.
    { eapply Hmain. unfold Pipeline.step_main. by rewrite Hm, Hq, Hcd. }
    assert (Hcloser : ∀ s', step_closer s = Some s' → ∃ g s', step g s = Some s').
    { intros s' Hs. exists GCloser, s'. unfold Pipeline.step. by rewrite Hnc, Hm. }
    destruct Hcs as [c Hc].
    destruct c as [| |].
    + destruct (decide (wg s = 0%Z)) as [Hz|Hnz].
      { eapply Hcloser. unfold step_closer. rewrite Hc. simpl. by rewrite decide_True. }
      destruct (total_positive pending (workers s)) as (j & pc & Hj & Hpos); [lia|].
      pose proof (total_lookup holds_slot _ _ _ Hj).
      eapply (Hworker j pc Hj).
      * intros ->. simpl in Hpos. lia.
      * intros r -> _. simpl. destruct videos; [done|simpl; lia].
      * intros e ->. simpl in *. lia.
    + eapply Hcloser. unfold step_closer. rewrite Hc. simpl. by rewrite Hcd.
    + specialize (Hcl' Hc). congruence.
  - eapply Hmain. unfold Pipeline.step_main. by rewrite Hm.
Qed.

(** A crash has one of two causes: a negative capacity given to [make],
    or a panic in the body of a worker. *)
Lemma crash_cause s :
  reachable s → crashed s = true →
  (ConcurrencyLimit cfg < 0)%Z ∨ ∃ i, panics videos cfg geminiClient world i.
Proof.
  intros Hreach Hc. destruct (decide (videos = [])) as [Hv|Hv].
  - destruct Hreach as [schedule Hrun]. pose proof (run_no_videos _ _ Hv Hrun) as ->.
    unfold Pipeline.init in Hc. by rewrite Hv in Hc.
  - by apply (inv_crashed _ _ _ _ _ (reachable_inv _ Hv Hreach)).
Qed.

Lemma run_app schedule1 schedule2 s :
  run (schedule1 ++ schedule2) s = s' ← run schedule1 s; run schedule2 s'.
Proof.
  revert s. induction schedule1 as [|g schedule1 IH]; intros s; simpl; [done|].
  destruct (step g s); simpl; [apply IH|done].
Qed.

(** With at least one slot and no panic in a worker body, every run can be
    continued to normal termination; and by [run_measure] it cannot be
    continued for ever, so that it ends there whatever the schedule. *)
Lemma every_run_completes s :
  (0 < ConcurrencyLimit cfg)%Z →
  (∀ i, ¬ panics videos cfg geminiClient world i) →
  reachable s →
  ∃ schedule s', run schedule s = Some s' ∧ terminated s'.
Proof.
  intros Hlimit Hpanic. revert s.
  cut (∀ n s, measure s < n → reachable s →
              ∃ schedule s', run schedule s = Some s' ∧ terminated s').
  { intros Hcut s Hreach. apply (Hcut (S (measure s))); [lia|done]. }
  induction n as [|n IH]; intros s Hn Hreach; [lia|].
  assert (crashed s = false) as Hnc.
  { destruct (crashed s) eqn:Hc; [|done].
    destruct (crash_cause s Hreach Hc) as [?|[i Hi]]; [lia|by destruct (Hpanic i)]. }
  destruct (decide (main s = MReturned)) as [Hret|Hret].
  { exists [], s. by split. }
  destruct (decide (videos = [])) as [Hv|Hv].
  { destruct Hreach as [schedule Hrun]. pose proof (run_no_videos _ _ Hv Hrun) as ->.
    unfold Pipeline.init in Hret. by rewrite Hv in Hret. }
  destruct (no_deadlock s Hv Hlimit Hreach Hnc Hret) as (g & s1 & Hstep).
  pose proof (step_measure _ _ _ Hstep) as Hlt.
  destruct (IH s1) as (schedule & s' & Hrun & Hterm); [lia| |].
  { destruct Hreach as [schedule0 Hrun0]. exists (schedule0 ++ [g]).
    rewrite run_app, Hrun0. simpl. by rewrite Hstep. }
  exists (g :: schedule), s'. split; [|done]. simpl. by rewrite Hstep.
Qed.

End Run.
End PipelineFacts.

(** * The properties on concrete runs *)

Module Runs.
Import Strings Acquirer Summarizer Worker Report Pipeline Scenario.
Import AcquirerFacts WorkerFacts PipelineFacts.

(** The first run of yt-dlp fails and reports that there are no subtitles. *)
Lemma C5_witness :
  ∃ r h',
    getVideoTranscript "a" defaultConfig subtitleless [] = Ok r h'
    ∧ outcome r = Absent
    ∧ h' = [] ++ [EvMkdirAll (TempTranscriptDir defaultConfig);
                  EvExec "yt-dlp" (fetch_args subtitleless "a" defaultConfig)]
    ∧ count is_exec h' = S (count is_exec [])
    ∧ count is_sleep h' = count is_sleep [].
Proof.
  apply (C5_no_subtitles_short_circuits subtitleless "a" defaultConfig []).
  - reflexivity.
  - reflexivity.
  - vm_compute. reflexivity.
Defined.

(** Three failed runs of yt-dlp, two sleeps between them. *)
Lemma C6_witness :
  ∃ hlast output e,
    cmd_CombinedOutput offline hlast "yt-dlp" (fetch_args offline "a" defaultConfig)
    = (output, Some e)
    ∧ getVideoTranscript "a" defaultConfig offline []
      = Ok ("", Some (wrapError
              ("yt-dlp command for video " +:+ "a" +:+ " failed after "
               +:+ pretty (MaxTranscriptRetries defaultConfig) +:+ " attempts: " +:+ Error e
               +:+ nl +:+ "Last Output: " +:+ output) e))
           (hlast ++ [EvExec "yt-dlp" (fetch_args offline "a" defaultConfig)])
    ∧ count is_exec (hlast ++ [EvExec "yt-dlp" (fetch_args offline "a" defaultConfig)])
      = count is_exec [] + Z.to_nat (MaxTranscriptRetries defaultConfig)
    ∧ count is_sleep (hlast ++ [EvExec "yt-dlp" (fetch_args offline "a" defaultConfig)])
      = count is_sleep [] + (Z.to_nat (MaxTranscriptRetries defaultConfig) - 1).
Proof.
  apply (C6_transient_failures_exhaust_retries offline "a" defaultConfig []).
  - reflexivity.
  - reflexivity.
  - intros h. eexists _, _. split; [reflexivity|]. vm_compute. reflexivity.
Defined.

(** yt-dlp succeeds and neither pattern matches a file. *)
Lemma C7_witness :
  ∃ r h', getVideoTranscript "a" defaultConfig fileless [] = Ok r h'
          ∧ r = ("", None) ∧ outcome r = Absent.
Proof.
  eapply (C7_missing_or_empty_artifact_is_absent fileless "a" defaultConfig []).
  - reflexivity.
  - vm_compute. reflexivity.
  - vm_compute. reflexivity.
  - left. reflexivity.
Defined.

(** The result of the worker of [videoA] in a world without failures. *)
Lemma C8_witness :
  ¬ (Summary {| Details := videoA; Summary := "summary 0"; Err := None |} ≠ ""
     ∧ Err {| Details := videoA; Summary := "summary 0"; Err := None |} ≠ None).
Proof.
  eapply (C8_summary_and_error_exclusive (worlds 0) videoA defaultConfig client []).
  vm_compute. reflexivity.
Defined.

(** The worker is the same with a summarize function that panics on the
    empty transcript. *)
Lemma C10_witness :
  (∀ g cfg w h,
      summarizeTranscriptWithGemini g "" cfg w h
      = Ok ("Transcript was empty, no summary generated.", None) h)
  ∧ (∀ v cfg client w h,
      worker_with strict v cfg client w h = worker v cfg client w h)
  ∧ (∀ video allResults t,
      let r := {| Details := video; Summary := emptyTranscriptSummary; Err := None |} in
      successfulSummaries (visit (<[ID video := r]> allResults) t video)
      = (successfulSummaries t + 1)%Z
      ∧ videosWithErrors (visit (<[ID video := r]> allResults) t video)
        = videosWithErrors t).
Proof.
  apply (C10_empty_transcript_placeholder strict).
  intros g transcript cfg w h Hne. unfold strict.
  destruct (decide (transcript = "")) as [He|_]; [destruct (Hne He)|reflexivity].
Defined.

(** Three workers that finish in the order 2, 1, 0: the report is in the
    order 0, 1, 2. *)
Lemma C1_witness :
  ID ∘ entry_item <$> printed_entries after_reversed = ID <$> three
  ∧ entry_item <$> printed_entries after_reversed = three
  ∧ ∀ i v, three !! i = Some v →
           ∃ r, result_of defaultConfig client worlds i v r
                ∧ printed_entries after_reversed !! i = Some (Found r).
Proof.
  destruct (C1_report_in_input_order three defaultConfig client worlds reversed
              after_reversed) as [Hids Hitems].
  - vm_compute. reflexivity.
  - split; vm_compute; reflexivity.
  - split; [exact Hids|]. apply Hitems.
    apply NoDup_ListNoDup. repeat constructor; simpl; intuition discriminate.
Defined.

(** Two slots, three videos: two workers run and the main goroutine waits
    for a slot. *)
Lemma C2_witness :
  total executing (workers saturated) ≤ Z.to_nat (ConcurrencyLimit twoSlots)
  ∧ total executing (workers saturated) ≤ total holds_slot (workers saturated)
  ∧ semaphore saturated = total holds_slot (workers saturated) + slot_in_hand (main saturated)
  ∧ semaphore saturated ≤ Z.to_nat (ConcurrencyLimit twoSlots)
  ∧ ∀ i, releases three twoSlots client worlds i saturating (init three twoSlots)
         = released i saturated.
Proof.
  apply (C2_concurrency_bounded three twoSlots client worlds saturating saturated).
  vm_compute. reflexivity.
Defined.

(** After the run of three workers the map has the three results. *)
Lemma C3_witness :
  workers after_reversed = replicate (length three) WExited
  ∧ resultsChannel after_reversed = []
  ∧ size (allResults after_reversed) = length three
  ∧ ∀ i v, three !! i = Some v →
           ∃ r, result_of defaultConfig client worlds i v r
                ∧ allResults after_reversed !! ID v = Some r.
Proof.
  destruct (C3_one_result_per_item three defaultConfig client worlds after_reversed)
    as [_ Hdone].
  - apply NoDup_ListNoDup. repeat constructor; simpl; intuition discriminate.
  - exists reversed. vm_compute. reflexivity.
  - apply Hdone. split; vm_compute; reflexivity.
Defined.

(** C9. One video, whose summary the model returns as white space: the
    run terminates normally, the report has the one entry, without
    summary and without error, and the final log line counts no
    successful summary and no video with error or without summary, out of
    one video. *)
Theorem C9_blank_summary_is_counted_nowhere :
  run [videoA] defaultConfig client blank single (init [videoA] defaultConfig)
  = Some after_blank
  ∧ terminated after_blank
  ∧ printed_entries after_blank
    = [Found {| Details := videoA; Summary := ""; Err := None |}]
  ∧ counts [videoA] <$> printed after_blank = Some (0, 0, 1)%Z.
Proof.
  split; [vm_compute; reflexivity|].
  split; [split; vm_compute; reflexivity|].
  split; vm_compute; reflexivity.
Qed.

End Runs.

(** * More properties of the transcript acquisition *)

Module AcquirerUsage.
Import Strings Acquirer Events AcquirerFacts.

Lemma count_nil p : count p [] = 0.
Proof. reflexivity. Qed.

Lemma count_cons p e (h : History) : count p (e :: h) = (if p e then 1 else 0) + count p h.
Proof. unfold count. simpl. by destruct (p e). Qed.

Lemma count_only (p : Event → bool) (Q : Event → Prop) (h : History) :
  Forall Q h → (∀ e, Q e → p e = false) → count p h = 0.
Proof.
  intros Hall Hpq. induction Hall as [|e h He _ IH]; [done|].
  rewrite count_cons, (Hpq e He), IH. done.
Qed.

(** What one run of the loop of lines 157-190 does, whatever the world
    answers: only yt-dlp runs and sleeps, at most one run per iteration
    left, every sleep followed by another run. *)
Lemma attempts_usage cfg args w :
  ∀ n attempt output err h,
    (0 < n → (attempt + Z.of_nat n = MaxTranscriptRetries cfg + 1)%Z) →
    ∃ exit added,
      attempts cfg args n attempt output err w h = Ok exit (h ++ added)
      ∧ Forall (retry_event cfg args) added
      ∧ count is_exec added ≤ n
      ∧ (0 < n → count is_sleep added + 1 ≤ count is_exec added)
      ∧ (n = 0 → added = [] ∧ exit = Left output err)
      ∧ (∀ r, exit = Returned r → r = ("", None))
      ∧ (∀ out e, exit = Left out (Some e) → 0 < n →
           ∃ h0, cmd_CombinedOutput w h0 "yt-dlp" args = (out, Some e)).
Proof.
  induction n as [|n IH]; intros attempt output err h Hn.
  - exists (Left output err), []. simpl. rewrite app_nil_r.
    repeat split; try done; try lia.
  - specialize (Hn ltac:(lia)). simpl. run_m.
    assert (Hone : ∀ exit,
              (∀ r, exit = Returned r → r = ("", None)) →
              (∀ o e', exit = Left o (Some e') →
                 ∃ h0, cmd_CombinedOutput w h0 "yt-dlp" args = (o, Some e')) →
              ∃ exit' added,
                Ok exit (h ++ [EvExec "yt-dlp" args]) = Ok exit' (h ++ added)
                ∧ Forall (retry_event cfg args) added
                ∧ count is_exec added ≤ S n
                ∧ (0 < S n → count is_sleep added + 1 ≤ count is_exec added)
                ∧ (S n = 0 → added = [] ∧ exit' = Left output err)
                ∧ (∀ r, exit' = Returned r → r = ("", None))
                ∧ (∀ out e, exit' = Left out (Some e) → 0 < S n →
                     ∃ h0, cmd_CombinedOutput w h0 "yt-dlp" args = (out, Some e))).
    { intros exit Hret Hleft. exists exit, [EvExec "yt-dlp" args].
      split; [done|]. split; [repeat constructor; by left|].
      rewrite !count_cons, !count_nil. unfold count in *. simpl.
      split; [lia|]. split; [lia|]. split; [intros ?; lia|]. split; [done|].
      intros o e' He' _. by apply Hleft. }
    destruct (cmd_CombinedOutput w h "yt-dlp" args) as [out [e|]] eqn:Hans;
      destruct (no_subtitles out) eqn:Hsig; simpl.
    + apply Hone; [by intros r [= <-]|done].
    + case_bool_decide as Hlt; simpl.
      * destruct (IH (attempt + 1)%Z out (Some e)
                    ((h ++ [EvExec "yt-dlp" args]) ++ [EvSleep (TranscriptRetryDelay cfg)]))
          as (exit & added & -> & Hall & Hex & Hsl & Hz & Hret & Hleft); [lia|].
        exists exit, (EvExec "yt-dlp" args :: EvSleep (TranscriptRetryDelay cfg) :: added).
        rewrite <- !app_assoc. simpl.
        split; [done|].
        split; [constructor; [by left|]; constructor; [by right|done]|].
        rewrite !count_cons. unfold count in *. simpl.
        assert (0 < n) by lia.
        split; [lia|]. split; [intros _; specialize (Hsl ltac:(lia)); lia|].
        split; [intros ?; lia|]. split; [done|].
        intros o e' He' _. by apply (Hleft o e' He').
      * assert (n = 0) as -> by lia. simpl. run_m.
        apply Hone; [done|]. intros o e' [= <- <-]. by exists h.
    + apply Hone; [by intros r [= <-]|done].
    + apply Hone; [done|done].
Qed.

Ltac hist :=
  f_equal; rewrite <- ?app_assoc; simpl; rewrite ?app_nil_r; rewrite <- ?app_assoc;
  reflexivity.

(** The calls [getVideoTranscript] makes, in order: [MkdirAll]; the runs
    of yt-dlp and the sleeps between them; at most two [Glob]s; and, if a
    file was found, [OpenFile] and [Remove] of that file. *)
Lemma getVideoTranscript_shape videoID cfg w h :
  ∃ r retries globs files,
    getVideoTranscript videoID cfg w h
    = Ok r (h ++ EvMkdirAll (TempTranscriptDir cfg) :: retries ++ globs ++ files)
    ∧ Forall (retry_event cfg (fetch_args w videoID cfg)) retries
    ∧ count is_exec retries ≤ Z.to_nat (MaxTranscriptRetries cfg)
    ∧ (retries = [] ∨ count is_sleep retries + 1 ≤ count is_exec retries)
    ∧ Forall (λ e, is_glob e = true) globs ∧ length globs ≤ 2
    ∧ (files = [] ∨ ∃ path, files = [EvOpenFile path; EvRemove path])
    ∧ (∀ e, r.2 = Some e → r.1 = "" ∧ ∃ cause, Unwrap e = Some cause ∧ reported w cause)
    ∧ (os_MkdirAll w h (TempTranscriptDir cfg) = None →
       ∃ exit, fetch videoID cfg w (h ++ [EvMkdirAll (TempTranscriptDir cfg)])
               = Ok exit ((h ++ [EvMkdirAll (TempTranscriptDir cfg)]) ++ retries)).
Proof.
  unfold getVideoTranscript. run_m.
  destruct (os_MkdirAll w h (TempTranscriptDir cfg)) as [mkErr|] eqn:Hmk; simpl.
  { exists ("", Some (wrapError
       ("failed to create temp dir " +:+ TempTranscriptDir cfg +:+ " for video "
        +:+ videoID +:+ ": " +:+ Error mkErr) mkErr)), [], [], [].
    simpl. split; [done|]. split; [done|]. split; [unfold count; simpl; lia|].
    split; [by left|]. split; [done|]. split; [lia|]. split; [by left|].
    split; [|done].
    intros e [= <-]. split; [done|]. exists mkErr. split; [done|]. left. by eauto. }
  rewrite fetch_unfold.
  destruct (attempts_usage cfg (fetch_args w videoID cfg) w
              (Z.to_nat (MaxTranscriptRetries cfg)) 1%Z "" None
              (h ++ [EvMkdirAll (TempTranscriptDir cfg)]))
    as (exit & retries & Hfetch & Hall & Hex & Hsl & Hz & Hret & Hleft); [lia|].
  rewrite Hfetch.
  assert (Hsleep : retries = [] ∨ count is_sleep retries + 1 ≤ count is_exec retries).
  { destruct (Z.to_nat (MaxTranscriptRetries cfg)) as [|n]; [left; by apply Hz|].
    right. apply Hsl. lia. }
  clear Hfetch.
  destruct exit as [r|output [e|]]; simpl.
  - exists r, retries, [], []. split; [hist|]. split; [done|]. split; [done|].
    split; [done|]. split; [done|]. split; [simpl; lia|]. split; [by left|].
    split; [|intros _; by eexists]. rewrite (Hret r eq_refl). by intros e [=].
  - eexists (_, _), retries, [], []. split; [hist|]. split; [done|]. split; [done|].
    split; [done|]. split; [done|]. split; [simpl; lia|]. split; [by left|].
    split; [|intros _; by eexists].
    intros e' [= <-]. split; [done|]. exists e. split; [done|].
    destruct (Z.to_nat (MaxTranscriptRetries cfg)) as [|n] eqn:Hn.
    { by destruct (Hz eq_refl) as [_ [=]]. }
    destruct (Hleft output e eq_refl ltac:(lia)) as [h0 Hh0].
    right; left. exists h0, "yt-dlp", (fetch_args w videoID cfg). by rewrite Hh0.
  - unfold find_vtt. run_m.
    remember ((h ++ [EvMkdirAll (TempTranscriptDir cfg)]) ++ retries) as h1 eqn:Hh1.
    remember (filepath_Join w (TempTranscriptDir cfg) (videoID +:+ ".*.vtt")) as pattern.
    remember (filepath_Join w (TempTranscriptDir cfg) (videoID +:+ ".vtt")) as fallback.
    assert (Hdone : ∀ (r : string * option error) globs files,
              Forall (λ e, is_glob e = true) globs → length globs ≤ 2 →
              (files = [] ∨ ∃ p, files = [EvOpenFile p; EvRemove p]) →
              (∀ e, r.2 = Some e →
                 r.1 = "" ∧ ∃ cause, Unwrap e = Some cause ∧ reported w cause) →
              ∃ r' retries0 globs0 files0,
                Ok r ((h1 ++ globs) ++ files)
                = Ok r' (h ++ EvMkdirAll (TempTranscriptDir cfg)
                             :: retries0 ++ globs0 ++ files0)
                ∧ Forall (retry_event cfg (fetch_args w videoID cfg)) retries0
                ∧ count is_exec retries0 ≤ Z.to_nat (MaxTranscriptRetries cfg)
                ∧ (retries0 = [] ∨ count is_sleep retries0 + 1 ≤ count is_exec retries0)
                ∧ Forall (λ e, is_glob e = true) globs0 ∧ length globs0 ≤ 2
                ∧ (files0 = [] ∨ ∃ p, files0 = [EvOpenFile p; EvRemove p])
                ∧ (∀ e, r'.2 = Some e →
                     r'.1 = "" ∧ ∃ cause, Unwrap e = Some cause ∧ reported w cause)
                ∧ (@None error = None →
                   ∃ exit : loop_exit,
                     Ok (Left output None) h1
                     = Ok exit ((h ++ [EvMkdirAll (TempTranscriptDir cfg)]) ++ retries0))).
    { intros r globs files Hg Hlen Hfiles Herr. exists r, retries, globs, files.
      split; [rewrite Hh1; hist|]. repeat (split; [done|]).
      intros _. eexists. by rewrite Hh1. }
    assert (Hparse : ∀ hg path,
              ∃ r, (r0 ← parse videoID path; _ ← Remove path; mret r0) w hg
                   = Ok r (hg ++ [EvOpenFile path; EvRemove path])
                   ∧ (∀ e, r.2 = Some e →
                        r.1 = "" ∧ ∃ cause, Unwrap e = Some cause ∧ reported w cause)).
    { intros hg path. unfold parse. run_m.
      destruct (astisub_OpenFile w hg path) as [subs|openErr] eqn:Hopen; simpl.
      - case_decide; simpl; rewrite <- !app_assoc; simpl;
          (eexists (_, _); split; [reflexivity|]; by intros e [=]).
      - rewrite <- !app_assoc. simpl. eexists (_, _). split; [reflexivity|].
        intros e [= <-]. split; [done|]. exists openErr. split; [done|].
        do 3 right. left. by eauto. }
    destruct (filepath_Glob w h1 pattern) as [matches [globErr|]] eqn:Hglob; simpl.
    + rewrite <- (app_nil_r (h1 ++ [EvGlob pattern])).
      apply Hdone; [by repeat constructor|simpl; lia|by left|].
      intros e [= <-]. split; [done|]. exists globErr. split; [done|].
      do 2 right. left. exists h1, pattern. by rewrite Hglob.
    + destruct matches as [|path rest]; simpl; rewrite <- ?Heqfallback.
      * destruct (filepath_Glob w (h1 ++ [EvGlob pattern]) fallback)
          as [[|path rest] ignored] eqn:Hglob2; simpl.
        -- rewrite <- (app_nil_r ((h1 ++ [EvGlob pattern]) ++ [EvGlob fallback])).
           rewrite <- (app_assoc h1).
           apply Hdone; [by repeat constructor|simpl; lia|by left|]. by intros e [=].
        -- destruct (Hparse ((h1 ++ [EvGlob pattern]) ++ [EvGlob fallback]) path)
             as (r & Hr & Herr).
           simpl in Hr. unfold mbind, M_bind, Remove, mret, M_ret in Hr. rewrite Hr.
           rewrite <- (app_assoc h1).
           apply Hdone; [by repeat constructor|simpl; lia|right; by eexists|done].
      * destruct (Hparse (h1 ++ [EvGlob pattern]) path) as (r & Hr & Herr).
        simpl in Hr. unfold mbind, M_bind, Remove, mret, M_ret in Hr. rewrite Hr.
        apply Hdone; [by repeat constructor|simpl; lia|right; by eexists|done].
Qed.

(** X1. Whatever the outside world answers, one call of
    [getVideoTranscript] returns, after one [MkdirAll], at most
    [MaxTranscriptRetries] runs of yt-dlp, fewer sleeps than runs, at most
    two [Glob]s, at most one [OpenFile] and as many [Remove]s, and no call
    of the model. *)
Theorem X1_acquisition_call_budget w videoID cfg h :
  ∃ r added,
    getVideoTranscript videoID cfg w h = Ok r (h ++ added)
    ∧ count is_mkdir added = 1
    ∧ count is_exec added ≤ Z.to_nat (MaxTranscriptRetries cfg)
    ∧ (count is_sleep added = 0 ∨ count is_sleep added < count is_exec added)
    ∧ count is_glob added ≤ 2
    ∧ count is_open added ≤ 1
    ∧ count is_remove added = count is_open added
    ∧ count is_generate added = 0.
Proof.
  destruct (getVideoTranscript_shape videoID cfg w h)
    as (r & retries & globs & files & Hrun & Hall & Hex & Hsl & Hg & Hlen & Hfiles & _).
  exists r, (EvMkdirAll (TempTranscriptDir cfg) :: retries ++ globs ++ files).
  split; [done|].
  assert (Hr : ∀ p, (∀ e, retry_event cfg (fetch_args w videoID cfg) e → p e = false) →
                    count p retries = 0).
  { intros p Hp. by eapply count_only. }
  assert (Hgl : ∀ p, (∀ e, is_glob e = true → p e = false) → count p globs = 0).
  { intros p Hp. by eapply (count_only p (λ e, is_glob e = true)). }
  assert (Hgc : count is_glob globs = length globs).
  { clear -Hg. induction Hg as [|e l He _ IH]; [done|].
    rewrite count_cons, He, IH. done. }
  assert (Hnr : ∀ p, (∀ a b, p (EvExec a b) = false) → (∀ d, p (EvSleep d) = false) →
                     count p retries = 0).
  { intros p Hp1 Hp2. apply Hr. by intros e [->| ->]. }
  rewrite !count_cons, !count_app. simpl.
  rewrite (Hnr is_mkdir), (Hnr is_glob), (Hnr is_open), (Hnr is_remove), (Hnr is_generate)
    by done.
  rewrite (Hgl is_mkdir), (Hgl is_exec), (Hgl is_sleep), (Hgl is_open), (Hgl is_remove),
    (Hgl is_generate), Hgc by (by intros []).
  destruct Hfiles as [->|[path ->]]; rewrite ?count_cons, ?count_nil; simpl;
    (split; [lia|]; split; [lia|]; split; [|lia]);
    (destruct Hsl as [->|Hsl]; [left; by rewrite count_nil|right; lia]).
Qed.

(** X2. A file [getVideoTranscript] opens is removed before it returns,
    also when the file cannot be parsed: [OpenFile] and [Remove] of that
    file are the last two calls it makes. *)
Theorem X2_opened_file_is_removed w videoID cfg h :
  ∃ r added,
    getVideoTranscript videoID cfg w h = Ok r (h ++ added)
    ∧ ∀ path, EvOpenFile path ∈ added ∨ EvRemove path ∈ added →
              ∃ before, added = before ++ [EvOpenFile path; EvRemove path].
Proof.
  destruct (getVideoTranscript_shape videoID cfg w h)
    as (r & retries & globs & files & Hrun & Hall & _ & _ & Hg & _ & Hfiles & _).
  exists r, (EvMkdirAll (TempTranscriptDir cfg) :: retries ++ globs ++ files).
  split; [done|]. intros path Hin.
  assert (Hnot : ∀ e, is_open e || is_remove e = true →
                      e ∈ EvMkdirAll (TempTranscriptDir cfg) :: retries ++ globs → False).
  { intros e He Hin'. apply elem_of_cons in Hin' as [->|Hin']; [done|].
    apply elem_of_app in Hin' as [Hin'|Hin'].
    - rewrite Forall_forall in Hall. destruct (Hall e Hin') as [->| ->]; done.
    - rewrite Forall_forall in Hg. specialize (Hg e Hin'). by destruct e. }
  destruct Hfiles as [->|[p ->]].
  - rewrite !app_nil_r in *. exfalso.
    destruct Hin as [Hin|Hin];
      [by apply (Hnot (EvOpenFile path))|by apply (Hnot (EvRemove path))].
  - assert (path = p) as ->.
    { destruct Hin as [Hin|Hin];
        rewrite app_assoc, app_comm_cons in Hin;
        apply elem_of_app in Hin as [Hin|Hin].
      - exfalso. by apply (Hnot (EvOpenFile path)).
      - apply elem_of_cons in Hin as [Hin|Hin]; [by simplify_eq|].
        apply list_elem_of_singleton in Hin. by simplify_eq.
      - exfalso. by apply (Hnot (EvRemove path)).
      - apply elem_of_cons in Hin as [Hin|Hin]; [by simplify_eq|].
        apply list_elem_of_singleton in Hin. by simplify_eq. }
    exists (EvMkdirAll (TempTranscriptDir cfg) :: retries ++ globs).
    simpl. by rewrite <- app_assoc.
Qed.





(** X5. With [MaxTranscriptRetries] zero or negative yt-dlp is never run,
    and no error says so: when no file matches either pattern,
    [getVideoTranscript] returns the empty transcript without error, after
    [MkdirAll] and the two [Glob]s only. *)
Theorem X5_no_attempt_configured w videoID cfg h :
  (MaxTranscriptRetries cfg ≤ 0)%Z →
  os_MkdirAll w h (TempTranscriptDir cfg) = None →
  let dir := TempTranscriptDir cfg in
  let pattern := filepath_Join w dir (videoID +:+ ".*.vtt") in
  let fallback := filepath_Join w dir (videoID +:+ ".vtt") in
  filepath_Glob w (h ++ [EvMkdirAll dir]) pattern = ([], None) →
  (filepath_Glob w (h ++ [EvMkdirAll dir; EvGlob pattern]) fallback).1 = [] →
  getVideoTranscript videoID cfg w h
  = Ok ("", None) (h ++ [EvMkdirAll dir; EvGlob pattern; EvGlob fallback]).
Proof.
  intros Hmax Hmk dir pattern fallback Hg1 Hg2.
  unfold getVideoTranscript. run_m. rewrite Hmk. simpl.
  rewrite fetch_unfold. replace (Z.to_nat (MaxTranscriptRetries cfg)) with 0 by lia.
  simpl. unfold find_vtt. run_m. fold dir pattern. rewrite Hg1. simpl.
  fold fallback. rewrite <- app_assoc. simpl.
  destruct (filepath_Glob w (h ++ [EvMkdirAll dir; EvGlob pattern]) fallback)
    as [matches ignored]. simpl in Hg2. subst matches. simpl.
  by rewrite <- !app_assoc.
Qed.

(** X6. When the first pattern matches several files, the second pattern
    is not tried, and only the first match is opened and removed. *)
Theorem X6_only_first_match_is_used w videoID cfg h output h1 vttFilePath others :
  os_MkdirAll w h (TempTranscriptDir cfg) = None →
  fetch videoID cfg w (h ++ [EvMkdirAll (TempTranscriptDir cfg)]) = Ok (Left output None) h1 →
  let pattern := filepath_Join w (TempTranscriptDir cfg) (videoID +:+ ".*.vtt") in
  filepath_Glob w h1 pattern = (vttFilePath :: others, None) →
  ∃ r, getVideoTranscript videoID cfg w h
       = Ok r (h1 ++ [EvGlob pattern; EvOpenFile vttFilePath; EvRemove vttFilePath])
       ∧ parse videoID vttFilePath w (h1 ++ [EvGlob pattern])
         = Ok r (h1 ++ [EvGlob pattern; EvOpenFile vttFilePath]).
Proof.
  intros Hmk Hfetch pattern Hglob.
  unfold getVideoTranscript. run_m. rewrite Hmk. simpl. rewrite Hfetch.
  unfold find_vtt. run_m. fold pattern. rewrite Hglob. simpl.
  destruct (parse_total videoID vttFilePath w (h1 ++ [EvGlob pattern])) as (r & Hr).
  rewrite Hr. exists r. by rewrite <- !app_assoc.
Qed.

End AcquirerUsage.

(** * More properties of the summarize call and of the worker *)

Module WorkerMore.
Import Strings Acquirer Summarizer Worker Events AcquirerFacts WorkerFacts AcquirerUsage.

Lemma summarize_history g transcript cfg w h :
  transcript ≠ "" →
  final (summarizeTranscriptWithGemini g transcript cfg w h)
  = h ++ [EvGenerateContent g (summaryPrompt (SummaryWordCount cfg) transcript)
                            (LLMTimeout cfg)].
Proof.
  intros Hne. unfold summarizeTranscriptWithGemini. rewrite decide_False by done.
  run_m.
  destruct (genai_GenerateContent w h g _ _) as [[[|[[[[|[text|ty] ps]]|]] cs]]|err];
    done.
Qed.

(** X7. On a non-empty transcript [summarizeTranscriptWithGemini] calls
    the model exactly once, with the prompt built from [SummaryWordCount]
    and the transcript and with [LLMTimeout], whatever the answer: it does
    not retry, and does nothing else. *)
Theorem X7_one_model_call_per_summary g transcript cfg w h :
  transcript ≠ "" →
  let h' := h ++ [EvGenerateContent g (summaryPrompt (SummaryWordCount cfg) transcript)
                                    (LLMTimeout cfg)] in
  (∃ r, summarizeTranscriptWithGemini g transcript cfg w h = Ok r h')
  ∨ summarizeTranscriptWithGemini g transcript cfg w h = Panicked h'.
Proof.
  intros Hne h'. pose proof (summarize_history g transcript cfg w h Hne) as Hfinal.
  fold h' in Hfinal.
  destruct (summarizeTranscriptWithGemini g transcript cfg w h) as [r h2|h2];
    simpl in Hfinal; subst h2; [left; by exists r|by right].
Qed.

(** X8. What [summarizeTranscriptWithGemini] makes of the answer of the
    model, on a non-empty transcript.  A summary is returned only when the
    first part of the first candidate is a text, and is that text,
    trimmed; the other candidates and parts are ignored.  An error comes
    with the empty summary, and wraps the error of the call when the call
    failed. *)
Theorem X8_summary_is_first_text_trimmed g transcript cfg w h summary err h' :
  transcript ≠ "" →
  summarizeTranscriptWithGemini g transcript cfg w h = Ok (summary, err) h' →
  let answer := genai_GenerateContent w h g (summaryPrompt (SummaryWordCount cfg) transcript)
                                      (LLMTimeout cfg) in
  match err with
  | None => ∃ resp text, answer = inl resp ∧ first_text resp = Some text
                         ∧ summary = TrimSpace text
  | Some e =>
      summary = ""
      ∧ match answer with
        | inr cause => Unwrap e = Some cause
        | inl resp => first_text resp = None ∧ Unwrap e = None
        end
  end.
Proof.
  intros Hne. unfold summarizeTranscriptWithGemini. rewrite decide_False by done.
  run_m. unfold first_text.
  destruct (genai_GenerateContent w h g _ _) as [[[|[[[[|[text|ty] ps]]|]] cs]]|cause];
    simpl; intros Heq; simplify_eq; try done.
  by eexists _, _.
Qed.

(** X9. When the first candidate of the answer has no content (a nil
    pointer in Go), [summarizeTranscriptWithGemini] panics, and so does
    the worker that called it. *)
Theorem X9_candidate_without_content_panics g v cfg w h transcript h1 rest :
  getVideoTranscript (ID v) cfg w h = Ok (transcript, None) h1 →
  transcript ≠ "" →
  genai_GenerateContent w h1 g (summaryPrompt (SummaryWordCount cfg) transcript)
                        (LLMTimeout cfg)
  = inl {| Candidates := {| CandidateContent := None |} :: rest |} →
  ∃ h2, summarizeTranscriptWithGemini g transcript cfg w h1 = Panicked h2
        ∧ worker v cfg (Some g) w h = Panicked h2.
Proof.
  intros Hget Hne Hans.
  assert (Hs : summarizeTranscriptWithGemini g transcript cfg w h1
               = Panicked (h1 ++ [EvGenerateContent g
                   (summaryPrompt (SummaryWordCount cfg) transcript) (LLMTimeout cfg)])).
  { unfold summarizeTranscriptWithGemini. rewrite decide_False by done.
    run_m. by rewrite Hans. }
  eexists. split; [exact Hs|].
  unfold worker, worker_with. run_m. rewrite Hget. simpl.
  rewrite decide_False by done. simpl. by rewrite Hs.
Qed.

Lemma summarize_calls g transcript cfg w h :
  count is_generate (final (summarizeTranscriptWithGemini g transcript cfg w h))
  ≤ count is_generate h + 1.
Proof.
  destruct (decide (transcript = "")) as [->|Hne].
  - simpl. lia.
  - rewrite summarize_history by done. rewrite count_snoc. simpl. lia.
Qed.

(** X10. The body of a worker calls the model at most once, whatever the
    outside world answers and whether it returns or panics; and the result
    it returns carries the video it was started for. *)
Theorem X10_worker_calls_model_at_most_once w v cfg client h :
  count is_generate (final (worker v cfg client w h)) ≤ count is_generate h + 1
  ∧ ∀ r h', worker v cfg client w h = Ok r h' → Details r = v.
Proof.
  split; [|intros r h' Hr; by destruct (worker_with_result _ _ _ _ _ _ _ _ Hr)].
  destruct (worker_with_cases summarizeTranscriptWithGemini w v cfg client h)
    as (acquired & h1 & _ & Hc & Hcase).
  unfold worker.
  destruct (outcome acquired) as [t| |cause]; try (rewrite Hcase; simpl; lia).
  destruct Hcase as [_ Hcase].
  destruct client as [g|]; [|rewrite Hcase; simpl; lia].
  pose proof (summarize_calls g t cfg w h1) as Hs.
  destruct (summarizeTranscriptWithGemini g t cfg w h1) as [[s [e|]] h2|h2];
    rewrite Hcase; simpl in *; lia.
Qed.

(** X11. Without a Gemini client the body of a worker always returns, never
    calls the model, and its result has an error and no summary. *)
Theorem X11_no_client_no_summary w v cfg h :
  ∃ r h', worker v cfg None w h = Ok r h'
          ∧ Details r = v ∧ Summary r = "" ∧ is_Some (Err r)
          ∧ count is_generate h' = count is_generate h.
Proof.
  destruct (worker_with_cases summarizeTranscriptWithGemini w v cfg None h)
    as (acquired & h1 & _ & Hc & Hcase).
  unfold worker.
  destruct (outcome acquired) as [t| |cause]; [destruct Hcase as [_ Hcase]| |];
    rewrite Hcase; eexists _, _; (split; [reflexivity|]); simpl; by eauto.
Qed.

End WorkerMore.

(** * More properties of the goroutines *)

Module PipelineMore.
Import Strings Acquirer Summarizer Worker Report Pipeline Events Accounting.
Import WorkerFacts ReportFacts PipelineFacts WorkerMore.

Section Run.
Variable videos : list VideoDetails.
Variable cfg : AppConfig.
Variable geminiClient : option GenerativeModel.
Variable world : nat → World.

Local Abbreviation init := (init videos cfg).
Local Abbreviation step := (step videos cfg geminiClient world).
Local Abbreviation step_worker := (step_worker videos cfg geminiClient world).
Local Abbreviation run := (run videos cfg geminiClient world).
Local Abbreviation reachable := (reachable videos cfg geminiClient world).
Local Abbreviation Inv := (Inv videos cfg geminiClient world).
Local Abbreviation Accounted := (Accounted videos cfg geminiClient world).
Local Abbreviation result_of := (result_of cfg geminiClient world).
Local Abbreviation panics := (panics videos cfg geminiClient world).

(** The step of an unreturned, uncrashed state is the step of the
    goroutine named. *)
Lemma step_unfold g s s' :
  step g s = Some s' →
  crashed s = false ∧ main s ≠ MReturned
  ∧ match g with
    | GMain => step_main videos cfg s
    | GWorker i => step_worker i s
    | GCloser => step_closer s
    end = Some s'.
Proof.
  unfold Pipeline.step. destruct (crashed s); [done|].
  destruct (main s), g; try done.
Qed.

Lemma step_accounted g s s' :
  Inv s → Accounted s → step g s = Some s' → Accounted s'.
Proof.
  intros HI HA Hstep. apply step_unfold in Hstep as (Hnc & Hret & Hstep).
  specialize (HA Hnc). intros Hcr' j pcj Hj Hsent.
  destruct g as [|i|].
  - unfold step_main in Hstep.
    destruct (main s) as [i|i|i| | | |] eqn:Hmain; simplify_eq/=; try by eauto.
    + case_decide; simplify_eq/=. by eauto.
    + destruct (videos !! i) as [video|] eqn:Hvid; simplify_eq/=.
      apply lookup_app_Some in Hj as [Hj|[Hge Hj]]; [by eauto|].
      apply list_lookup_singleton_Some in Hj as [_ <-]. done.
    + destruct (resultsChannel s) as [|result rest] eqn:Hq.
      * destruct (closed s); simplify_eq/=. rewrite Hq. by eauto.
      * simplify_eq/=.
        destruct (HA j pcj Hj Hsent) as (v & r & Hv & Hres & Hwhere).
        exists v, r. split; [done|]. split; [done|].
        destruct Hwhere as [Hin|Hmap].
        -- apply elem_of_cons in Hin as [->|Hin]; [|by left].
           right. rewrite (result_of_details _ _ _ _ _ _ Hres). rewrite lookup_insert_eq.
           by eexists.
        -- right. destruct (decide (ID (Details result) = ID v)) as [->|Hne].
           ++ rewrite lookup_insert_eq. by eexists.
           ++ by rewrite lookup_insert_ne.
  - unfold Pipeline.step_worker in Hstep.
    destruct (workers s !! i) as [pc|] eqn:Hpc; simpl in *; [|done].
    assert (Hlook : ∀ pc', <[i:=pc']> (workers s) !! j = Some pcj →
              j = i ∧ pcj = pc' ∨ j ≠ i ∧ workers s !! j = Some pcj).
    { intros pc' Hl. destruct (decide (j = i)) as [->|Hne]; [left|right].
      - rewrite list_lookup_insert_eq in Hl by (by eapply lookup_lt_Some).
        by simplify_eq.
      - by rewrite list_lookup_insert_ne in Hl. }
    destruct pc as [v|r|e|e|].
    + destruct (worker v cfg geminiClient (world i) []) as [r h|h]; simplify_eq/=.
      * apply Hlook in Hj as [[-> ->]|[? Hj]]; [done|by eauto].
      * apply Hlook in Hj as [[-> ->]|[? Hj]]; [done|by eauto].
    + destruct (closed s); simplify_eq/=. case_decide; simplify_eq/=.
      apply Hlook in Hj as [[-> ->]|[? Hj]].
      * destruct (inv_send _ _ _ _ _ HI i r Hpc) as (v & Hv & Hres).
        exists v, r. split; [done|]. split; [done|]. left.
        apply elem_of_app. right. by apply list_elem_of_singleton.
      * destruct (HA j pcj Hj Hsent) as (v & r' & Hv & Hres & [Hin|Hmap]).
        -- exists v, r'. split; [done|]. split; [done|]. left.
           apply elem_of_app. by left.
        -- exists v, r'. by eauto.
    + destruct (semaphore s); simplify_eq/=.
      apply Hlook in Hj as [[-> ->]|[? Hj]]; [|by eauto].
      eapply (HA i (WRelease e)); [done|by destruct e].
    + case_decide; simplify_eq/=.
      destruct e; simplify_eq/=.
      apply Hlook in Hj as [[-> ->]|[? Hj]]; [|by eauto].
      by eapply (HA i (WDone Sent)).
    + done.
  - unfold step_closer in Hstep.
    destruct (closer s) as [[| |]|]; simplify_eq/=.
    + case_decide; simplify_eq/=. by eauto.
    + destruct (closed s); simplify_eq/=. by eauto.
Qed.

Lemma run_accounted schedule :
  ∀ s s', Inv s → Accounted s → run schedule s = Some s' → Accounted s'.
Proof.
  induction schedule as [|g schedule IH]; intros s s' HI HA Hrun; simpl in Hrun.
  - by simplify_eq.
  - destruct (step g s) as [s1|] eqn:Hs; simpl in Hrun; [|done].
    eapply IH; [| |done]; [by eapply step_inv|by eapply step_accounted].
Qed.

Lemma reachable_accounted s : videos ≠ [] → reachable s → Accounted s.
Proof.
  intros Hv [schedule Hrun].
  eapply run_accounted; [by apply init_inv| |done].
  intros _ i pc Hi. unfold Pipeline.init in Hi.
  destruct videos; simpl in Hi; by rewrite lookup_nil in Hi.
Qed.

(** At normal termination every video has an entry in the map. *)
Lemma terminated_all_present s :
  reachable s → terminated s →
  ∀ i v, videos !! i = Some v →
         (∃ r, result_of i v r) ∧ is_Some (allResults s !! ID v).
Proof.
  intros Hreach Hterm i v Hi.
  assert (videos ≠ []) as Hv by (intros Hnil; by rewrite Hnil, lookup_nil in Hi).
  pose proof (reachable_inv _ _ _ _ _ Hv Hreach) as HI.
  pose proof (reachable_accounted _ Hv Hreach) as HA.
  destruct (inv_collected _ _ _ _ _ HI (terminated_collected _ Hterm)) as [Hcd Hq].
  pose proof (closed_all_exited _ _ _ _ _ HI Hcd) as Hws.
  destruct (HA (proj2 Hterm) i WExited) as (v' & r & Hv' & Hres & Hwhere); [|done|].
  { rewrite Hws. apply lookup_replicate. split; [done|]. by eapply lookup_lt_Some. }
  simplify_eq. split; [by exists r|].
  destruct Hwhere as [Hin|Hmap]; [|done]. rewrite Hq in Hin. by apply elem_of_nil in Hin.
Qed.

(** A crashed process has not returned from [main]. *)
Lemma run_crashed schedule :
  ∀ s s', (crashed s = true → main s ≠ MReturned) →
          run schedule s = Some s' → crashed s' = true → main s' ≠ MReturned.
Proof.
  induction schedule as [|g schedule IH]; intros s s' Hs Hrun; simpl in Hrun.
  - by simplify_eq.
  - destruct (step g s) as [s1|] eqn:Hstep; simpl in Hrun; [|done].
    eapply IH; [|done]. intros Hc1.
    apply step_unfold in Hstep as (Hnc & Hret & Hstep).
    destruct g as [|i|].
    + unfold step_main in Hstep.
      destruct (main s) as [i|i|i| | | |]; simplify_eq/=; try congruence.
      * case_decide; simplify_eq/=. congruence.
      * destruct (videos !! i); simplify_eq/=. congruence.
      * destruct (resultsChannel s); [destruct (closed s)|]; simplify_eq/=; congruence.
    + unfold Pipeline.step_worker in Hstep.
      destruct (workers s !! i) as [pc|]; simpl in *; [|done].
      destruct pc as [v|r|e|e|]; [| | | |done].
      * destruct (worker v cfg geminiClient (world i) []); by simplify_eq/=.
      * destruct (closed s); [|case_decide]; by simplify_eq/=.
      * destruct (semaphore s); by simplify_eq/=.
      * case_decide; [|destruct e]; by simplify_eq/=.
    + unfold step_closer in Hstep.
      destruct (closer s) as [[| |]|]; simplify_eq/=.
      * case_decide; by simplify_eq/=.
      * destruct (closed s); by simplify_eq/=.
Qed.

Lemma reachable_no_videos s : videos = [] → reachable s → s = init.
Proof. intros Hv [schedule Hrun]. by eapply run_no_videos. Qed.

(** At normal termination with videos, the report printed is the one
    of the final map. *)
Lemma terminated_report s :
  videos ≠ [] → reachable s → terminated s →
  printed s = Some (report videos (allResults s)).
Proof.
  intros Hv Hreach Hterm.
  rewrite (inv_printed _ _ _ _ _ (reachable_inv _ _ _ _ _ Hv Hreach)).
  by rewrite decide_True by apply Hterm.
Qed.

Lemma reachable_run schedule s s' :
  reachable s → run schedule s = Some s' → reachable s'.
Proof.
  intros [schedule0 Hrun0] Hrun. exists (schedule0 ++ schedule).
  rewrite run_app, Hrun0. done.
Qed.

(** X12. Every run of the goroutines, whatever the schedule, has at most
    [8 * len(videos) + 5] steps: no schedule keeps the program running
    for ever. *)
Theorem X12_runs_are_bounded schedule s :
  run schedule init = Some s → length schedule ≤ 8 * length videos + 5.
Proof.
  intros Hrun. pose proof (run_measure _ _ _ _ _ _ _ Hrun) as Hm.
  assert (measure videos init ≤ 8 * length videos + 5); [|lia].
  unfold measure, Pipeline.init. destruct videos as [|v vs]; simpl; [lia|].
  destruct (bool_decide _); simpl; lia.
Qed.

(** X13. With at least one slot, as long as [main] has not returned and
    nothing has panicked, some goroutine can take a step: the main
    goroutine, the closer and the workers never all wait for each
    other. *)
Theorem X13_no_deadlock s :
  videos ≠ [] → (0 < ConcurrencyLimit cfg)%Z → reachable s →
  crashed s = false → main s ≠ MReturned →
  ∃ g s', step g s = Some s'.
Proof.
  intros Hv Hlimit Hreach Hnc Hret.
  destruct (no_deadlock _ _ _ _ s Hv Hlimit Hreach Hnc Hret) as (g & s' & Hs).
  by exists g, s'.
Qed.

(** X14. With at least one slot and no panic in a worker body, a state
    in which no goroutine can take a step is one where [main] has
    returned after printing the report; and every state reached can be
    continued to such a state. *)
Theorem X14_runs_end_in_normal_termination s :
  (0 < ConcurrencyLimit cfg)%Z → (∀ i, ¬ panics i) → reachable s →
  ((∀ g, step g s = None) → terminated s)
  ∧ ∃ schedule s', run schedule s = Some s' ∧ terminated s'.
Proof.
  intros Hlimit Hpanic Hreach. split.
  - intros Hstuck.
    assert (crashed s = false) as Hnc.
    { destruct (crashed s) eqn:Hc; [|done].
      destruct (crash_cause _ _ _ _ s Hreach Hc) as [?|[i Hi]]; [lia|by destruct (Hpanic i)]. }
    split; [|done].
    destruct (decide (main s = MReturned)) as [Hret|Hret]; [done|].
    destruct (decide (videos = [])) as [Hv|Hv].
    { rewrite (reachable_no_videos _ Hv Hreach) in Hret.
      unfold Pipeline.init in Hret. by rewrite Hv in Hret. }
    destruct (no_deadlock _ _ _ _ s Hv Hlimit Hreach Hnc Hret) as (g & s' & Hs).
    by rewrite Hstuck in Hs.
  - by apply every_run_completes.
Qed.

(** X15. When the process has crashed [main] has not returned and no
    report has been printed; and the crash comes from a negative
    capacity given to [make] or from a panic in the body of a worker. *)
Theorem X15_crash_prints_nothing s :
  reachable s → crashed s = true →
  main s ≠ MReturned ∧ printed s = None
  ∧ ((ConcurrencyLimit cfg < 0)%Z ∨ ∃ i, panics i).
Proof.
  intros Hreach Hc.
  assert (main s ≠ MReturned) as Hret.
  { destruct Hreach as [schedule Hrun]. eapply run_crashed; [|done|done].
    unfold Pipeline.init. by destruct videos. }
  split; [done|]. split; [|by apply (crash_cause _ _ _ _ s)].
  destruct (decide (videos = [])) as [Hv|Hv].
  - rewrite (reachable_no_videos _ Hv Hreach). unfold Pipeline.init. by rewrite Hv.
  - rewrite (inv_printed _ _ _ _ _ (reachable_inv _ _ _ _ _ Hv Hreach)).
    by rewrite decide_False.
Qed.

(** X16. A run in which the body of some worker panics never terminates
    normally: whatever the schedule, [main] does not return with the
    report. *)
Theorem X16_panic_prevents_termination s i :
  panics i → reachable s → ¬ terminated s.
Proof.
  intros (v & h & Hv & Hpanic) Hreach Hterm.
  destruct (terminated_all_present _ Hreach Hterm i v Hv) as [[r [h' Hres]] _].
  congruence.
Qed.

(** X17. Identifiers need not be unique: once the run has terminated
    normally no video of the list lacks an entry in the map, so that the
    report has no "result missing" block; the entry printed for a video
    is the result a worker computed for a video with the same identifier,
    and videos with the same identifier print the same entry. *)
Theorem X17_duplicates_share_one_result s :
  reachable s → terminated s →
  length (printed_entries s) = length videos
  ∧ (∀ i v, videos !! i = Some v →
            ∃ r j, printed_entries s !! i = Some (Found r)
                   ∧ videos !! j = Some (Details r) ∧ ID (Details r) = ID v
                   ∧ result_of j (Details r) r)
  ∧ (∀ i j v v', videos !! i = Some v → videos !! j = Some v' → ID v = ID v' →
                 printed_entries s !! i = printed_entries s !! j).
Proof.
  intros Hreach Hterm.
  destruct (decide (videos = [])) as [Hv|Hv].
  { rewrite (reachable_no_videos _ Hv Hreach).
    unfold printed_entries, Pipeline.init. rewrite Hv. simpl.
    split; [done|]. split; intros i; intros; by rewrite lookup_nil in *. }
  pose proof (reachable_inv _ _ _ _ _ Hv Hreach) as HI.
  assert (printed_entries s = entry_of (allResults s) <$> videos) as ->.
  { unfold printed_entries. rewrite (inv_printed _ _ _ _ _ HI).
    rewrite decide_True by apply Hterm. apply entries_report. }
  split; [by rewrite length_fmap|]. split.
  - intros i v Hi.
    destruct (terminated_all_present _ Hreach Hterm i v Hi) as [_ [r Hr]].
    destruct (inv_in_map _ _ _ _ _ HI _ _ Hr) as (j & v' & Hj & Hres & Hid).
    pose proof (result_of_details _ _ _ _ _ _ Hres) as Hd.
    exists r, j. rewrite list_lookup_fmap, Hi. simpl. unfold entry_of. rewrite Hr.
    rewrite Hd. split; [done|]. split; [done|]. split; [by symmetry|done].
  - intros i j v v' Hi Hj Hid. rewrite !list_lookup_fmap, Hi, Hj. simpl.
    destruct (terminated_all_present _ Hreach Hterm i v Hi) as [_ [r Hr]].
    unfold entry_of. rewrite <- Hid. by rewrite Hr.
Qed.

(** X18. Once the run has terminated normally every slot taken has been
    given back and the [WaitGroup] counter is back at zero: no worker is
    left running or counted, with or without unique identifiers. *)
Theorem X18_nothing_left_at_termination s :
  reachable s → terminated s →
  semaphore s = 0 ∧ wg s = 0%Z ∧ resultsChannel s = []
  ∧ workers s = replicate (length videos) WExited.
Proof.
  intros Hreach Hterm.
  destruct (decide (videos = [])) as [Hv|Hv].
  { rewrite (reachable_no_videos _ Hv Hreach). unfold Pipeline.init. by rewrite Hv. }
  pose proof (reachable_inv _ _ _ _ _ Hv Hreach) as HI.
  destruct (inv_collected _ _ _ _ _ HI (terminated_collected _ Hterm)) as [Hcd Hq].
  pose proof (closed_all_exited _ _ _ _ _ HI Hcd) as Hws.
  pose proof (inv_semaphore _ _ _ _ _ HI) as Hsem.
  pose proof (inv_wg _ _ _ _ _ HI) as Hwg.
  destruct Hterm as [Hm _]. rewrite Hm, Hws in *. simpl in *.
  assert (∀ n, total holds_slot (replicate n WExited) = 0
               ∧ total pending (replicate n WExited) = 0) as Hz.
  { clear. intros n. unfold total. induction n as [|n [IH1 IH2]]; simpl; [done|]. lia. }
  destruct (Hz (length videos)) as [Hz1 Hz2]. rewrite Hz1 in Hsem. rewrite Hz2 in Hwg.
  repeat split; try done; lia.
Qed.

(** X19. At every moment of the run the map holds at most one entry per
    video; every entry is the result the worker of some video computed,
    stored under the identifier of that video. *)
Theorem X19_map_within_the_videos s :
  reachable s →
  size (allResults s) ≤ length videos
  ∧ ∀ k r, allResults s !! k = Some r →
           ∃ i, videos !! i = Some (Details r) ∧ k = ID (Details r)
                ∧ result_of i (Details r) r.
Proof.
  intros Hreach.
  destruct (decide (videos = [])) as [Hv|Hv].
  { rewrite (reachable_no_videos _ Hv Hreach). unfold Pipeline.init. rewrite Hv. simpl.
    split; [by rewrite map_size_empty|]. intros k r Hk. by rewrite lookup_empty in Hk. }
  pose proof (reachable_inv _ _ _ _ _ Hv Hreach) as HI.
  assert (Hmap : ∀ k r, allResults s !! k = Some r →
            ∃ i, videos !! i = Some (Details r) ∧ k = ID (Details r)
                 ∧ result_of i (Details r) r).
  { intros k r Hk. destruct (inv_in_map _ _ _ _ _ HI _ _ Hk) as (i & v & Hi & Hres & ->).
    rewrite (result_of_details _ _ _ _ _ _ Hres). by exists i. }
  split; [|done].
  assert (dom (allResults s) ⊆ list_to_set (C := gset string) (ID <$> videos)) as Hsub.
  { intros k Hk. apply elem_of_dom in Hk as [r Hr].
    destruct (Hmap k r Hr) as (i & Hi & -> & _).
    apply elem_of_list_to_set, list_elem_of_fmap. exists (Details r).
    split; [done|]. by eapply list_elem_of_lookup_2. }
  apply subseteq_size in Hsub. rewrite size_dom in Hsub.
  etrans; [done|]. clear.
  induction videos as [|v vs IH]; [done|].
  rewrite fmap_cons, list_to_set_cons, length_cons.
  destruct (decide (ID v ∈ list_to_set (C := gset string) (ID <$> vs))) as [Hin|Hnin].
  - rewrite (subseteq_union_1_L (C := gset string) {[ID v]}) by (by apply singleton_subseteq_l).
    lia.
  - rewrite size_union by (by apply disjoint_singleton_l). rewrite size_singleton. lia.
Qed.

(** X20. A worker that has been started never waits: while [main] has
    not returned and nothing has panicked, each of its steps can be
    taken at once.  The send finds room in the results channel and the
    channel open, and the deferred receive finds a value in the
    semaphore. *)
Theorem X20_workers_never_wait s i pc :
  videos ≠ [] → reachable s → crashed s = false → main s ≠ MReturned →
  workers s !! i = Some pc → pc ≠ WExited →
  ∃ s', step (GWorker i) s = Some s'
        ∧ (∀ r, pc = WSend r →
                crashed s' = false ∧ resultsChannel s' = resultsChannel s ++ [r])
        ∧ (∀ e, pc = WRelease e → crashed s' = false ∧ S (semaphore s') = semaphore s).
Proof.
  intros Hv Hreach Hnc Hret Hi Hne.
  pose proof (reachable_inv _ _ _ _ _ Hv Hreach) as HI.
  pose proof (total_lookup holds_slot _ _ _ Hi) as Hslot.
  pose proof (total_lookup pending _ _ _ Hi) as Hpend.
  pose proof (inv_semaphore _ _ _ _ _ HI) as Hsem.
  pose proof (inv_channel _ _ _ _ _ HI) as Hch.
  pose proof (inv_dispatch _ _ _ _ _ HI) as Hdis.
  assert (length (workers s) ≤ length videos) as Hlen.
  { destruct (dispatching (main s)); lia. }
  assert (Hstep : ∀ s', step_worker i s = Some s' → step (GWorker i) s = Some s').
  { intros s' Hs. unfold Pipeline.step. rewrite Hnc. by destruct (main s). }
  unfold Pipeline.step_worker in Hstep. rewrite Hi in Hstep. simpl in Hstep.
  destruct pc as [v|r|e|e|]; [| | | |done].
  - destruct (worker v cfg geminiClient (world i) []) as [r h|h];
      eexists; (split; [by apply Hstep|]); by split.
  - assert (closed s = false) as Hcd.
    { destruct (closed s) eqn:Hcd; [|done].
      apply (inv_closed _ _ _ _ _ HI) in Hcd.
      pose proof (inv_closer_past _ _ _ _ _ HI (or_intror Hcd)). simpl in *. lia. }
    pose proof (total_past_send_lt _ _ _ Hi eq_refl).
    rewrite Hcd in Hstep. rewrite decide_True in Hstep by lia.
    eexists. split; [by apply Hstep|]. split; [|done].
    intros r' [= <-]. done.
  - simpl in *. destruct (semaphore s) as [|n] eqn:Hn; [lia|].
    eexists. split; [by apply Hstep|]. split; [done|]. intros e' _. done.
  - destruct (decide (wg s - 1 < 0)%Z);
      eexists; (split; [by apply Hstep|]); by split.
Qed.

(** X21. Without a Gemini client, once the run has terminated normally
    the report counts no summary and as many errors as there are
    videos. *)
Theorem X21_no_client_counts_every_video_as_error s t :
  geminiClient = None → reachable s → terminated s → printed s = Some t →
  successfulSummaries t = 0%Z ∧ videosWithErrors t = Z.of_nat (length videos).
Proof.
  intros Hclient Hreach Hterm Hprinted.
  destruct (decide (videos = [])) as [Hv|Hv].
  { rewrite (reachable_no_videos _ Hv Hreach) in Hprinted.
    unfold Pipeline.init in Hprinted. by rewrite Hv in Hprinted. }
  pose proof (reachable_inv _ _ _ _ _ Hv Hreach) as HI.
  rewrite (inv_printed _ _ _ _ _ HI) in Hprinted.
  rewrite decide_True in Hprinted by apply Hterm.
  injection Hprinted as <-.
  assert (Hall : ∀ v, v ∈ videos →
            summarized (allResults s) v = false ∧ errored (allResults s) v = true).
  { intros v Hin. apply list_elem_of_lookup in Hin as [i Hi].
    destruct (terminated_all_present _ Hreach Hterm i v Hi) as [_ [r Hr]].
    destruct (inv_in_map _ _ _ _ _ HI _ _ Hr) as (j & v' & Hj & [h Hres] & Hid).
    unfold summarized, errored. rewrite Hr.
    destruct (worker_with_cases summarizeTranscriptWithGemini (world j) v' cfg None [])
      as (acquired & h1 & _ & _ & Hcase).
    unfold worker in Hres. rewrite Hclient in Hres.
    destruct (outcome acquired) as [tr| |cause]; [destruct Hcase as [_ Hcase]| |];
      rewrite Hcase in Hres; injection Hres as <- _; simpl;
      done. }
  destruct (report_counts videos (allResults s)) as [-> ->].
  unfold number. clear -Hall.
  induction videos as [|v vs IH]; simpl; [done|].
  destruct (Hall v) as [-> ->]; [by left|]. simpl.
  destruct IH as [IH1 IH2]; [intros; apply Hall; by right|].
  split; [done|]. lia.
Qed.

(** X22. Once the run has terminated normally no video is counted twice:
    the number of summaries and the number of errors of the final log
    line add up to at most the number of videos. *)
Theorem X22_counts_within_total s t :
  reachable s → terminated s → printed s = Some t →
  (0 ≤ successfulSummaries t ∧ 0 ≤ videosWithErrors t
   ∧ successfulSummaries t + videosWithErrors t ≤ Z.of_nat (length videos))%Z.
Proof.
  intros Hreach Hterm Hprinted.
  destruct (decide (videos = [])) as [Hv|Hv].
  { rewrite (reachable_no_videos _ Hv Hreach) in Hprinted.
    unfold Pipeline.init in Hprinted. by rewrite Hv in Hprinted. }
  pose proof (reachable_inv _ _ _ _ _ Hv Hreach) as HI.
  rewrite (inv_printed _ _ _ _ _ HI) in Hprinted.
  rewrite decide_True in Hprinted by apply Hterm. simplify_eq.
  assert (Hexcl : ∀ k r, allResults s !! k = Some r → Summary r = "" ∨ Err r = None).
  { intros k r Hk. destruct (inv_in_map _ _ _ _ _ HI _ _ Hk) as (j & v' & Hj & [h Hres] & Hid).
    by destruct (worker_with_result _ _ _ _ _ _ _ _ Hres). }
  pose proof (report_accounts videos _ Hexcl) as Hsum.
  destruct (report_counts videos (allResults s)) as [-> ->].
  unfold number in *. lia.
Qed.

End Run.
End PipelineMore.

(** * The report, for any map *)

Module ReportMore.
Import Strings Report Accounting ReportFacts.

Lemma number_cons p v (vs : list VideoDetails) :
  number p (v :: vs) = ((if p v then 1 else 0) + number p vs)%Z.
Proof. unfold number. simpl. destruct (p v); simpl; lia. Qed.

(** X23. Whatever the map holds, the report has one entry per video, in
    the order of the list; the entry is the "result missing" block
    exactly when the map has nothing under the identifier of the video;
    each such video is counted as an error and none as a summary. *)
Theorem X23_report_handles_missing_results videos m :
  length (entries (report videos m)) = length videos
  ∧ (∀ i v, videos !! i = Some v →
            entry_item <$> entries (report videos m) !! i = Some v
            ∨ ∃ r, m !! ID v = Some r ∧ entries (report videos m) !! i = Some (Found r))
  ∧ (∀ i v, videos !! i = Some v →
            (entries (report videos m) !! i = Some (Missing v) ↔ m !! ID v = None))
  ∧ (number (missing m) videos ≤ videosWithErrors (report videos m)
     ≤ Z.of_nat (length videos))%Z
  ∧ (0 ≤ successfulSummaries (report videos m)
     ≤ Z.of_nat (length videos) - number (missing m) videos)%Z.
Proof.
  rewrite entries_report. destruct (report_counts videos m) as [-> ->].
  split; [by rewrite length_fmap|]. split; [|split].
  - intros i v Hi. rewrite list_lookup_fmap, Hi. simpl. unfold entry_of.
    destruct (m !! ID v) as [r|]; [right; by exists r|by left].
  - intros i v Hi. rewrite list_lookup_fmap, Hi. simpl. unfold entry_of.
    destruct (m !! ID v) as [r|]; split; intros; by simplify_eq.
  - induction videos as [|v vs IH]; [unfold number; simpl; lia|].
    rewrite !number_cons, length_cons.
    assert (missing m v = true → errored m v = true ∧ summarized m v = false) as Hm.
    { unfold missing, errored, summarized. destruct (m !! ID v); [|done].
      intros Hb. by apply bool_decide_eq_true in Hb. }
    destruct (missing m v); [destruct Hm as [-> ->]; [done|]; lia|].
    destruct (errored m v), (summarized m v); lia.
Qed.

End ReportMore.

(** * The playlist *)

Module PlaylistFacts.
Import Strings Playlist.

Lemma keep_ID item v : keep item = Some v → ID v ≠ "".
Proof.
  unfold keep. destruct (Snippet item), (ContentDetails item); try done.
  case_decide; intros; by simplify_eq.
Qed.

Lemma page_videos_ID response : Forall (λ v, ID v ≠ "") (page_videos response).
Proof.
  unfold page_videos. induction (Items response) as [|item items IH]; simpl; [done|].
  destruct (keep item) as [v|] eqn:Hk; [|done].
  constructor; [by eapply keep_ID|done].
Qed.

(** More fuel does not change a result. *)
Lemma pages_fuel service playlistID fuel :
  ∀ fuel' calls token videos r,
    fuel ≤ fuel' →
    pages service playlistID fuel calls token videos = Some r →
    pages service playlistID fuel' calls token videos = Some r.
Proof.
  induction fuel as [|fuel IH]; intros fuel' calls token videos r Hle Hr; [done|].
  destruct fuel' as [|fuel']; [lia|]. simpl in *.
  destruct (service calls playlistID token) as [response|err]; [|done].
  case_decide; [done|]. apply IH; [lia|done].
Qed.

Lemma pages_error service playlistID fuel :
  ∀ calls token videos result e calls',
    pages service playlistID fuel calls token videos = Some (result, Some e, calls') →
    result = []
    ∧ calls < calls' ≤ calls + fuel
    ∧ ∃ token' cause,
        service (calls' - 1) playlistID token' = inr cause
        ∧ e = wrapError ("PlaylistItems.List call failed for playlist "
                         +:+ playlistID +:+ ": " +:+ Error cause) cause.
Proof.
  induction fuel as [|fuel IH]; intros calls token videos result e calls' Hr; [done|].
  simpl in Hr.
  destruct (service calls playlistID token) as [response|err] eqn:Hs.
  - case_decide; [done|].
    destruct (IH _ _ _ _ _ _ Hr) as (-> & Hc & Hrest). split; [done|]. split; [lia|done].
  - simplify_eq. split; [done|]. split; [lia|].
    exists token, err. replace (S calls - 1) with calls by lia. done.
Qed.

Lemma pages_chain service playlistID fuel :
  ∀ calls token videos result calls',
    pages service playlistID fuel calls token videos = Some (result, None, calls') →
    ∃ responses,
      chain service playlistID calls token responses
      ∧ calls' = calls + length responses
      ∧ length responses ≤ fuel
      ∧ result = videos ++ concat (page_videos <$> responses).
Proof.
  induction fuel as [|fuel IH]; intros calls token videos result calls' Hr; [done|].
  simpl in Hr.
  destruct (service calls playlistID token) as [response|err] eqn:Hs; [|done].
  case_decide as Hnext.
  - simplify_eq. exists [response]. simpl. rewrite app_nil_r.
    repeat split; try done; lia.
  - destruct (IH _ _ _ _ _ Hr) as (responses & Hchain & -> & Hlen & ->).
    exists (response :: responses). simpl.
    split; [|split; [lia|split; [lia|by rewrite <- app_assoc]]].
    split; [done|]. destruct responses as [|r rs]; [done|]. done.
Qed.

Lemma chain_pages service playlistID responses :
  ∀ fuel calls token videos,
    chain service playlistID calls token responses →
    length responses ≤ fuel →
    pages service playlistID fuel calls token videos
    = Some (videos ++ concat (page_videos <$> responses), None,
            calls + length responses).
Proof.
  induction responses as [|response rest IH]; intros fuel calls token videos Hchain Hlen;
    [done|].
  destruct fuel as [|fuel]; [simpl in Hlen; lia|].
  destruct Hchain as [Hs Hrest]. simpl. rewrite Hs.
  destruct rest as [|r rs].
  - rewrite decide_True by done. simpl. rewrite app_nil_r.
    do 2 f_equal. lia.
  - destruct Hrest as [Hnext Hchain]. rewrite decide_False by done.
    rewrite (IH fuel (S calls) _ _ Hchain) by (simpl in *; lia).
    simpl. rewrite <- app_assoc. do 2 f_equal. lia.
Qed.


(** X25. A listing returned without error has been read to its end:
    the first request carries no page token, every later one the token
    of the response before, the last response has no next token, and
    the videos are those of all the responses, in order.  Every video
    has an identifier. *)
Theorem X25_listing_is_read_to_the_end service playlistID fuel videos calls :
  getPlaylistVideos service playlistID fuel = Some (videos, None, calls) →
  Forall (λ v, ID v ≠ "") videos
  ∧ ∃ responses,
      chain service playlistID 0 "" responses
      ∧ length responses = calls
      ∧ videos = concat (page_videos <$> responses).
Proof.
  intros Hr. apply pages_chain in Hr as (responses & Hchain & -> & _ & ->).
  split.
  - simpl. apply Forall_concat, Forall_fmap, Forall_forall. intros response _.
    apply page_videos_ID.
  - by exists responses.
Qed.

(** X26. When the service answers with a listing that ends,
    [getPlaylistVideos] returns: it makes one request per page and
    returns the kept items of all the pages, in order. *)
Theorem X26_listing_that_ends_is_returned service playlistID responses fuel :
  chain service playlistID 0 "" responses → length responses ≤ fuel →
  getPlaylistVideos service playlistID fuel
  = Some (concat (page_videos <$> responses), None, length responses).
Proof.
  intros Hchain Hlen. unfold getPlaylistVideos.
  by rewrite (chain_pages _ _ _ fuel 0 "" [] Hchain Hlen).
Qed.

(** X27. The loop has no limit of its own: with a service that answers
    every request with a next page token it is still running after any
    number of iterations. *)
Theorem X27_listing_without_end_never_returns service playlistID :
  (∀ calls token, ∃ response,
      service calls playlistID token = inl response ∧ NextPageToken response ≠ "") →
  ∀ fuel, getPlaylistVideos service playlistID fuel = None.
Proof.
  intros Hmore fuel. unfold getPlaylistVideos.
  generalize 0 "" (@nil VideoDetails).
  induction fuel as [|fuel IH]; intros calls token videos; [done|]. simpl.
  destruct (Hmore calls token) as (response & -> & Hnext).
  rewrite decide_False by done. apply IH.
Qed.

End PlaylistFacts.

(** * The start of [main] *)

Module StartupFacts.
Import Strings Worker Report Pipeline Playlist Startup.
Import ConfigFacts ReportFacts PipelineFacts PipelineMore PlaylistFacts.

Lemma startup_processing env sv fuel cfg geminiClient videos :
  startup env sv fuel = Some (Processing cfg geminiClient videos) →
  initializeAppConfig (YOUTUBE_API_KEY env) (GEMINI_API_KEY env)
                      (PLAYLIST_ID env) (GEMINI_MODEL env) = (Some cfg, None)
  ∧ geminiClient = newGeminiClient sv cfg
  ∧ youtube_NewService sv (YoutubeAPIKey cfg) = None
  ∧ videos ≠ []
  ∧ ∃ calls, getPlaylistVideos (youtubeService sv) (PlaylistID cfg) fuel
             = Some (videos, None, calls).
Proof.
  unfold startup.
  destruct (initializeAppConfig _ _ _ _) as [[cfg'|] [err|]]; try done.
  unfold getYouTubeService.
  destruct (youtube_NewService sv (YoutubeAPIKey cfg')) as [err|] eqn:Hy; [done|].
  destruct (getPlaylistVideos _ _ _) as [[[vs [err|]] calls]|] eqn:Hg; try done.
  case_decide as Hlen; [done|]. intros [= <- <- <-].
  repeat split; try done.
  - intros ->. done.
  - by exists calls.
Qed.

(** X28. What [main] starts the processing with: the YouTube key is set;
    the settings are the built-in ones, with five slots and three
    attempts; the playlist is the one of the environment, or the
    built-in one; there is a Gemini client exactly when the key is set
    and the client could be created, for the model of the environment or
    the built-in one; and the list of videos is not empty, each video
    with an identifier. *)
Theorem X28_processing_starts_well_configured env sv fuel cfg geminiClient videos :
  startup env sv fuel = Some (Processing cfg geminiClient videos) →
  YOUTUBE_API_KEY env ≠ ""
  ∧ ConcurrencyLimit cfg = 5%Z ∧ MaxTranscriptRetries cfg = 3%Z
  ∧ PlaylistID cfg = (if decide (PLAYLIST_ID env = "") then defaultPlaylistID
                      else PLAYLIST_ID env)
  ∧ (geminiClient = None ↔
     GEMINI_API_KEY env = "" ∨ is_Some (genai_NewClient sv (GEMINI_API_KEY env)))
  ∧ (∀ g, geminiClient = Some g →
          ModelName g = (if decide (GEMINI_MODEL env = "") then defaultGeminiModel
                         else GEMINI_MODEL env))
  ∧ videos ≠ [] ∧ Forall (λ v, ID v ≠ "") videos.
Proof.
  intros Hs. apply startup_processing in Hs as (Hcfg & -> & _ & Hv & calls & Hg).
  assert (Forall (λ v, ID v ≠ "") videos) as Hids.
  { apply pages_chain in Hg as (responses & _ & _ & _ & ->). simpl.
    apply Forall_concat, Forall_fmap, Forall_forall. intros response _.
    apply page_videos_ID. }
  unfold initializeAppConfig in Hcfg. simpl in Hcfg.
  case_decide as Hkey; [done|]. injection Hcfg as <-.
  unfold newGeminiClient, getEnvWithDefault. simpl.
  repeat split; try done.
  - by destruct (decide (PLAYLIST_ID env = "")); [rewrite decide_False by (by intros ?)|rewrite decide_True].
  - destruct (decide (GEMINI_API_KEY env ≠ "")) as [Hk|Hk].
    + destruct (genai_NewClient sv (GEMINI_API_KEY env)); [by right; eexists|done].
    + intros _. left. by destruct (decide (GEMINI_API_KEY env = "")).
  - intros [Hk|[e He]].
    + by rewrite decide_False by (by intros ?).
    + rewrite He. by case_decide.
  - intros g. case_decide; [|done].
    destruct (genai_NewClient sv (GEMINI_API_KEY env)); [done|]. intros [= <-]. simpl.
    by destruct (decide (GEMINI_MODEL env = "")); [rewrite decide_False by (by intros ?)|rewrite decide_True].
Qed.

(** X29. [main] stops with a fatal error before any video is processed
    in three cases only: the YouTube key is not set, which is fatal
    whatever the services answer; the YouTube service cannot be created;
    a request for a page of the playlist fails.  A missing Gemini key
    and a Gemini client that cannot be created are not among them. *)
Theorem X29_fatal_conditions env sv fuel :
  (YOUTUBE_API_KEY env = "" →
   startup env sv fuel
   = Some (Fatal ("CRITICAL: Failed to initialize application configuration: "
                  +:+ "YOUTUBE_API_KEY environment variable must be set")))
  ∧ ∀ o, startup env sv fuel = Some o →
         ((∃ message, o = Fatal message) ↔
          YOUTUBE_API_KEY env = ""
          ∨ is_Some (youtube_NewService sv (YOUTUBE_API_KEY env))
          ∨ ∃ e calls,
              getPlaylistVideos (youtubeService sv)
                (getEnvWithDefault (PLAYLIST_ID env) defaultPlaylistID) fuel
              = Some ([], Some e, calls)).
Proof.
  unfold startup, initializeAppConfig. simpl. split.
  - intros ->. done.
  - intros o. destruct (decide (YOUTUBE_API_KEY env = "")) as [Hkey|Hkey].
    { intros Ho; apply (inj Some) in Ho; subst o. split; [by left|by eexists]. }
    unfold getYouTubeService. cbn [YoutubeAPIKey PlaylistID].
    destruct (youtube_NewService sv (YOUTUBE_API_KEY env)) as [err|] eqn:Hy.
    { intros Ho; apply (inj Some) in Ho; subst o. split; [right; left; by eexists|by eexists]. }
    destruct (getPlaylistVideos _ _ _) as [[[vs [err|]] calls]|] eqn:Hg; [| |done].
    + intros Ho; apply (inj Some) in Ho; subst o. split; [|by eexists]. intros _. right. right.
      destruct (pages_error _ _ _ _ _ _ _ _ _ Hg) as (-> & _). by exists err, calls.
    + intros Ho. split.
      * intros [message ->]. by case_decide.
      * intros [?|[[? ?]|(e & calls' & ?)]]; done.
Qed.

(** X30. Once [main] has started the processing, with workers whose
    bodies do not panic: nothing crashes, and whatever the goroutines
    have done so far the run can be continued until [main] returns,
    having printed a report with one entry per video of the playlist,
    none of them the "result missing" block. *)
Theorem X30_started_processing_completes env sv fuel cfg geminiClient videos world :
  startup env sv fuel = Some (Processing cfg geminiClient videos) →
  (∀ i, ¬ panics videos cfg geminiClient world i) →
  ∀ s, reachable videos cfg geminiClient world s →
       crashed s = false
       ∧ ∃ schedule s' t,
           run videos cfg geminiClient world schedule s = Some s'
           ∧ terminated s' ∧ printed s' = Some t
           ∧ length (entries t) = length videos
           ∧ ∀ e, e ∈ entries t → ∃ r, e = Found r.
Proof.
  intros Hs Hpanic s Hreach.
  apply startup_processing in Hs as (Hcfg & _ & _ & Hv & _).
  apply initializeAppConfig_defaults in Hcfg as (_ & _ & _ & _ & Hlimit).
  split.
  { destruct (crashed s) eqn:Hc; [|done].
    destruct (crash_cause _ _ _ _ s Hreach Hc) as [?|[i Hi]]; [lia|by destruct (Hpanic i)]. }
  destruct (every_run_completes videos cfg geminiClient world s) as (schedule & s' & Hrun & Hterm);
    [lia|done|done|].
  pose proof (reachable_run _ _ _ _ _ _ _ Hreach Hrun) as Hreach'.
  exists schedule, s', (report videos (allResults s')).
  split; [done|]. split; [done|].
  split; [by apply (terminated_report videos cfg geminiClient world)|].
  rewrite entries_report. split; [by rewrite length_fmap|].
  intros e He. apply list_elem_of_fmap in He as (v & -> & Hin).
  apply list_elem_of_lookup in Hin as [i Hi].
  destruct (terminated_all_present _ _ _ _ _ Hreach' Hterm i v Hi) as [_ [r Hr]].
  exists r. unfold entry_of. by rewrite Hr.
Qed.

End StartupFacts.

(** * More runs *)

Module MoreRuns.
Import Strings Acquirer Summarizer Worker Report Pipeline Events Accounting.
Import Playlist Startup Scenario Cases.
Import AcquirerUsage WorkerMore PipelineMore ReportMore PlaylistFacts StartupFacts.

Lemma worlds_do_not_panic cfg :
  cfg = defaultConfig ∨ cfg = twoSlots →
  ∀ i, ¬ panics three cfg client worlds i.
Proof.
  intros Hcfg i (v & h & Hv & Hp).
  destruct i as [|[|[|i]]]; simpl in Hv; [| | |done];
    injection Hv as <-; destruct Hcfg as [-> | ->];
    vm_compute in Hp; discriminate Hp.
Qed.



(** No attempt allowed and no file there. *)
Lemma X5_witness :
  getVideoTranscript "a" noAttempts fileless []
  = Ok ("", None) [EvMkdirAll "./transcripts_temp";
                   EvGlob "./transcripts_temp/a.*.vtt";
                   EvGlob "./transcripts_temp/a.vtt"].
Proof.
  apply (X5_no_attempt_configured fileless "a" noAttempts []).
  - vm_compute. discriminate.
  - reflexivity.
  - reflexivity.
  - reflexivity.
Defined.

(** One file matches and is parsed. *)
Lemma X6_witness :
  ∃ h1 r,
    getVideoTranscript "a" defaultConfig (smooth "s") []
    = Ok r (h1 ++ [EvGlob "./transcripts_temp/a.*.vtt";
                   EvOpenFile "./transcripts_temp/a.*.vtt";
                   EvRemove "./transcripts_temp/a.*.vtt"])
    ∧ parse "a" "./transcripts_temp/a.*.vtt" (smooth "s")
            (h1 ++ [EvGlob "./transcripts_temp/a.*.vtt"])
      = Ok r (h1 ++ [EvGlob "./transcripts_temp/a.*.vtt";
                     EvOpenFile "./transcripts_temp/a.*.vtt"]).
Proof.
  eexists.
  eapply (X6_only_first_match_is_used (smooth "s") "a" defaultConfig []
            "[info] Writing video subtitles" _ "./transcripts_temp/a.*.vtt" []).
  - reflexivity.
  - vm_compute. reflexivity.
  - reflexivity.
Defined.

(** The model is asked once. *)
Lemma X7_witness :
  (∃ r, summarizeTranscriptWithGemini gemini "hello world" defaultConfig (smooth "s") []
        = Ok r ([] ++ [EvGenerateContent gemini
                         (summaryPrompt (SummaryWordCount defaultConfig) "hello world")
                         (LLMTimeout defaultConfig)]))
  ∨ summarizeTranscriptWithGemini gemini "hello world" defaultConfig (smooth "s") []
    = Panicked ([] ++ [EvGenerateContent gemini
                         (summaryPrompt (SummaryWordCount defaultConfig) "hello world")
                         (LLMTimeout defaultConfig)]).
Proof.
  apply (X7_one_model_call_per_summary gemini "hello world" defaultConfig (smooth "s") []).
  discriminate.
Defined.

(** The answer [" s "] gives the summary ["s"]. *)
Lemma X8_witness :
  ∃ resp text,
    genai_GenerateContent (smooth " s ") [] gemini
      (summaryPrompt (SummaryWordCount defaultConfig) "hello world")
      (LLMTimeout defaultConfig) = inl resp
    ∧ first_text resp = Some text ∧ "s" = TrimSpace text.
Proof.
  eapply (X8_summary_is_first_text_trimmed gemini "hello world" defaultConfig
            (smooth " s ") [] "s" None).
  - discriminate.
  - vm_compute. reflexivity.
Defined.

(** A candidate without content makes the worker panic. *)
Lemma X9_witness :
  ∃ h2, worker videoA defaultConfig client contentless [] = Panicked h2.
Proof.
  edestruct (X9_candidate_without_content_panics gemini videoA defaultConfig contentless [])
    as (h2 & _ & Hworker).
  - vm_compute. reflexivity.
  - discriminate.
  - reflexivity.
  - exists h2. exact Hworker.
Defined.

(** The run of [reversed] has 27 steps, for three videos. *)
Lemma X12_witness : length reversed ≤ 8 * length three + 5.
Proof.
  apply (X12_runs_are_bounded three defaultConfig client worlds reversed after_reversed).
  vm_compute. reflexivity.
Defined.

(** Two slots taken and the main goroutine waiting for one: a worker
    can step. *)
Lemma X13_witness :
  ∃ g s', step three twoSlots client worlds g saturated = Some s'.
Proof.
  apply (X13_no_deadlock three twoSlots client worlds saturated).
  - discriminate.
  - reflexivity.
  - exists saturating. vm_compute. reflexivity.
  - vm_compute. reflexivity.
  - vm_compute. discriminate.
Defined.

Lemma X14_witness :
  ((∀ g, step three twoSlots client worlds g saturated = None) → terminated saturated)
  ∧ ∃ schedule s',
      run three twoSlots client worlds schedule saturated = Some s' ∧ terminated s'.
Proof.
  apply (X14_runs_end_in_normal_termination three twoSlots client worlds saturated).
  - reflexivity.
  - apply worlds_do_not_panic. by right.
  - exists saturating. vm_compute. reflexivity.
Defined.

(** The worker of the one video panics: the process crashes and nothing
    is printed. *)
Lemma X15_witness :
  main after_crashing ≠ MReturned ∧ printed after_crashing = None
  ∧ ((ConcurrencyLimit defaultConfig < 0)%Z
     ∨ ∃ i, panics [videoA] defaultConfig client (λ _, contentless) i).
Proof.
  apply (X15_crash_prints_nothing [videoA] defaultConfig client (λ _, contentless)
           after_crashing).
  - exists crashing. vm_compute. reflexivity.
  - vm_compute. reflexivity.
Defined.

Lemma X16_witness : ¬ terminated after_crashing.
Proof.
  apply (X16_panic_prevents_termination [videoA] defaultConfig client (λ _, contentless)
           after_crashing 0).
  - exists videoA. eexists. split; [reflexivity|]. vm_compute. reflexivity.
  - exists crashing. vm_compute. reflexivity.
Defined.

(** The same video twice: both entries are the same result. *)
Lemma X17_witness :
  length (printed_entries after_doubled) = length twice
  ∧ (∀ i v, twice !! i = Some v →
            ∃ r j, printed_entries after_doubled !! i = Some (Found r)
                   ∧ twice !! j = Some (Details r) ∧ ID (Details r) = ID v
                   ∧ result_of defaultConfig client worlds j (Details r) r)
  ∧ (∀ i j v v', twice !! i = Some v → twice !! j = Some v' → ID v = ID v' →
                 printed_entries after_doubled !! i = printed_entries after_doubled !! j).
Proof.
  apply (X17_duplicates_share_one_result twice defaultConfig client worlds after_doubled).
  - exists doubled. vm_compute. reflexivity.
  - split; vm_compute; reflexivity.
Defined.

Lemma X18_witness :
  semaphore after_reversed = 0 ∧ wg after_reversed = 0%Z
  ∧ resultsChannel after_reversed = []
  ∧ workers after_reversed = replicate (length three) WExited.
Proof.
  apply (X18_nothing_left_at_termination three defaultConfig client worlds after_reversed).
  - exists reversed. vm_compute. reflexivity.
  - split; vm_compute; reflexivity.
Defined.

Lemma X19_witness :
  size (allResults after_doubled) ≤ length twice
  ∧ ∀ k r, allResults after_doubled !! k = Some r →
           ∃ i, twice !! i = Some (Details r) ∧ k = ID (Details r)
                ∧ result_of defaultConfig client worlds i (Details r) r.
Proof.
  apply (X19_map_within_the_videos twice defaultConfig client worlds after_doubled).
  exists doubled. vm_compute. reflexivity.
Defined.

Lemma X20_witness :
  ∃ s', step three twoSlots client worlds (GWorker 0) saturated = Some s'
        ∧ (∀ r, WRun videoA = WSend r →
                crashed s' = false
                ∧ resultsChannel s' = resultsChannel saturated ++ [r])
        ∧ (∀ e, WRun videoA = WRelease e →
                crashed s' = false ∧ S (semaphore s') = semaphore saturated).
Proof.
  apply (X20_workers_never_wait three twoSlots client worlds saturated 0 (WRun videoA)).
  - discriminate.
  - exists saturating. vm_compute. reflexivity.
  - vm_compute. reflexivity.
  - vm_compute. discriminate.
  - vm_compute. reflexivity.
  - discriminate.
Defined.

Lemma X21_witness :
  successfulSummaries skipped_report = 0%Z
  ∧ videosWithErrors skipped_report = Z.of_nat (length [videoA]).
Proof.
  apply (X21_no_client_counts_every_video_as_error [videoA] defaultConfig None worlds
           after_skipped skipped_report).
  - reflexivity.
  - exists single. vm_compute. reflexivity.
  - split; vm_compute; reflexivity.
  - vm_compute. reflexivity.
Defined.

Lemma X22_witness :
  (0 ≤ successfulSummaries reversed_report ∧ 0 ≤ videosWithErrors reversed_report
   ∧ successfulSummaries reversed_report + videosWithErrors reversed_report
     ≤ Z.of_nat (length three))%Z.
Proof.
  apply (X22_counts_within_total three defaultConfig client worlds
           after_reversed reversed_report).
  - exists reversed. vm_compute. reflexivity.
  - split; vm_compute; reflexivity.
  - vm_compute. reflexivity.
Defined.


(** Two pages, three videos and an item without details. *)
Lemma X25_witness :
  Forall (λ v, ID v ≠ "") three
  ∧ ∃ responses,
      chain twoPages "PL" 0 "" responses
      ∧ length responses = 2
      ∧ three = concat (page_videos <$> responses).
Proof.
  apply (X25_listing_is_read_to_the_end twoPages "PL" 5 three 2).
  vm_compute. reflexivity.
Defined.

Lemma X26_witness :
  getPlaylistVideos twoPages "PL" 2
  = Some (concat (page_videos <$> [firstPage; secondPage]), None,
          length [firstPage; secondPage]).
Proof.
  apply (X26_listing_that_ends_is_returned twoPages "PL" [firstPage; secondPage] 2).
  - simpl. split; [reflexivity|]. split; [discriminate|]. split; reflexivity.
  - simpl. lia.
Defined.

(** Still running after a thousand requests. *)
Lemma X27_witness : getPlaylistVideos endless "PL" 1000 = None.
Proof.
  apply (X27_listing_without_end_never_returns endless "PL").
  intros calls token. exists firstPage. split; [reflexivity|discriminate].
Defined.

(** The two keys set and nothing else: the processing starts with the
    built-in settings and the three videos of the playlist. *)
Lemma X28_witness :
  YOUTUBE_API_KEY environment ≠ ""
  ∧ ConcurrencyLimit defaultConfig = 5%Z ∧ MaxTranscriptRetries defaultConfig = 3%Z
  ∧ PlaylistID defaultConfig
    = (if decide (PLAYLIST_ID environment = "") then defaultPlaylistID
       else PLAYLIST_ID environment)
  ∧ (client = None ↔
     GEMINI_API_KEY environment = ""
     ∨ is_Some (genai_NewClient services (GEMINI_API_KEY environment)))
  ∧ (∀ g, client = Some g →
          ModelName g = (if decide (GEMINI_MODEL environment = "") then defaultGeminiModel
                         else GEMINI_MODEL environment))
  ∧ three ≠ [] ∧ Forall (λ v, ID v ≠ "") three.
Proof.
  apply (X28_processing_starts_well_configured environment services 5).
  vm_compute. reflexivity.
Defined.

(** Without the YouTube key [main] stops at once. *)
Lemma X29_witness :
  startup keyless services 0
  = Some (Fatal ("CRITICAL: Failed to initialize application configuration: "
                 +:+ "YOUTUBE_API_KEY environment variable must be set")).
Proof.
  apply (X29_fatal_conditions keyless services 0). reflexivity.
Defined.

(** The whole program on the playlist of two pages. *)
Lemma X30_witness :
  crashed (init three defaultConfig) = false
  ∧ ∃ schedule s' t,
      run three defaultConfig client worlds schedule (init three defaultConfig) = Some s'
      ∧ terminated s' ∧ printed s' = Some t
      ∧ length (entries t) = length three
      ∧ ∀ e, e ∈ entries t → ∃ r, e = Found r.
Proof.
  apply (X30_started_processing_completes environment services 5
           defaultConfig client three worlds).
  - vm_compute. reflexivity.
  - apply worlds_do_not_panic. by left.
  - exists []. reflexivity.
Defined.

End MoreRuns.
